(** * Verification of the prediction-screening notebook

    Shallow embedding of [evaluate-predictions/pick-interesting-compounds.ipynb]:
    the chemical-system key [get_elems], the per-system deduplication
    [get_most_stable], the system enumerator [assemble_list_of_systems], the
    filter [run_filter] with the global collector
    [list_of_interesting_compounds], and the element predicates. *)

From Stdlib Require Import ZArith Ascii String List Lia.
From stdpp Require Import base list strings gmap sorting.

Local Open Scope string_scope.
Local Open Scope list_scope.

(** ** Element symbols: [elem_re = re.compile('[A-Z][a-z]?')] *)

Module Symbols.

(** Python [str] values are strings of characters; only the ASCII classes
    [A-Z] and [a-z] matter to the pattern. *)
Definition is_upper (c : ascii) : bool :=
  (65 <=? nat_of_ascii c)%nat && (nat_of_ascii c <=? 90)%nat.

Definition is_lower (c : ascii) : bool :=
  (97 <=? nat_of_ascii c)%nat && (nat_of_ascii c <=? 122)%nat.

(** [elem_re.findall(s)]: the non-overlapping matches of [[A-Z][a-z]?],
    scanning left to right; the optional lowercase letter is taken
    whenever it is there (greedy [?]). *)
Fixpoint elem_re_findall (s : string) : list string :=
  match s with
  | EmptyString => []
  | String c s' =>
      if is_upper c then
        match s' with
        | String d s'' =>
            if is_lower d
            then String c (String d EmptyString) :: elem_re_findall s''
            else String c EmptyString :: elem_re_findall s'
        | EmptyString => [String c EmptyString]
        end
      else elem_re_findall s'
  end.

(** [sorted(xs)] on strings: ascending in the code-point order of [str]. *)
Definition sorted (xs : list string) : list string :=
  merge_sort String.le xs.

(** [''.join(xs)] *)
Definition join (xs : list string) : string :=
  foldr String.append EmptyString xs.

(** [set(xs)] is a finite set of strings; [sorted] iterates over it. *)
Definition get_elems (s : string) : string :=
  join (sorted (elements (list_to_set (elem_re_findall s) : gset string))).

(** A string that is exactly one match of the pattern. *)
Definition is_symbol (e : string) : bool :=
  match e with
  | String c EmptyString => is_upper c
  | String c (String d EmptyString) => is_upper c && is_lower d
  | _ => false
  end.

End Symbols.

Import Symbols.

(** ** Prediction tables *)

(** A [float64] cell.  The code only compares these values, so a finite value
    is an integer on a fixed scale and [None] is NaN. *)
Definition float64 : Type := option Z.

(** [x < y] on floats: false as soon as one side is NaN. *)
Definition float_lt (x y : float64) : Prop :=
  match x, y with
  | Some a, Some b => (a < b)%Z
  | _, _ => False
  end.

(** The order [sort_values(..., ascending=True)] puts a column in: finite
    values ascending, NaN last ([na_position='last'] is the default). *)
Definition ascending (x y : float64) : Prop :=
  match x, y with
  | Some a, Some b => (a ≤ b)%Z
  | _, None => True
  | None, Some _ => False
  end.

Global Instance float_lt_dec : RelDecision float_lt.
Proof. intros [a|] [b|]; simpl; apply _. Defined.

Global Instance ascending_dec : RelDecision ascending.
Proof. intros [a|] [b|]; simpl; apply _. Defined.

(** One row of a prediction table ([dl_predictions[...]], [dl_best[...]]).
    [index] is the pandas row label, which sorting and filtering carry along;
    [comp_obj] is derived from [composition] and is not used by any
    operation below. *)
Record Row : Type := mkRow {
  index : nat;
  composition : string;
  delta_e : float64;
  stability_predicted : float64;
  system : string
}.

(** A table is the list of its rows, in row order. *)
Abbreviation Table := (list Row).

(** Rows compared on the sort column. *)
Definition row_le (r1 r2 : Row) : Prop :=
  ascending (stability_predicted r1) (stability_predicted r2).

Global Instance row_le_dec : RelDecision row_le.
Proof. intros r1 r2; unfold row_le; apply _. Defined.

(** ** Deduplication: [get_most_stable] *)

(** [drop_duplicates('system', keep='first')]: one pass in row order that
    keeps a row exactly when its system has not been seen before. *)
Fixpoint drop_duplicates_from (seen : gset string) (data : Table) : Table :=
  match data with
  | [] => []
  | r :: rest =>
      if decide (system r ∈ seen) then drop_duplicates_from seen rest
      else r :: drop_duplicates_from ({[system r]} ∪ seen) rest
  end.

Definition drop_duplicates (data : Table) : Table :=
  drop_duplicates_from ∅ data.

(** The rows of [data] whose sort key is [v], in table order. *)
Definition rows_with (v : float64) (data : Table) : Table :=
  filter (λ r, stability_predicted r = v) data.

(** [DataFrame.sort_values] is library code, so it enters as a parameter
    [sort_values] of the operations below.  What the call
    [sort_values('stability_predicted', ascending=True)] is required to do:
    return the same rows, ascending on the column.  A sort is stable when
    rows with equal keys keep their relative order; the call leaves the
    algorithm ([kind]) at the library default, and the properties that
    depend on the order of ties take stability as a hypothesis. *)
Definition sorts_ascending (sort_values : Table → Table) : Prop :=
  ∀ data, sort_values data ≡ₚ data ∧ Sorted row_le (sort_values data).

Definition stable (sort_values : Table → Table) : Prop :=
  ∀ data v, rows_with v (sort_values data) = rows_with v data.

(** [data.sort_values('stability_predicted', ascending=True)
         .drop_duplicates('system', keep='first')] *)
Definition get_most_stable (sort_values : Table → Table) (data : Table) : Table :=
  drop_duplicates (sort_values data).

(** A stable ascending sort: insertion from the right, a row going in front
    of the first row that is not smaller. *)
Fixpoint insert_row (r : Row) (data : Table) : Table :=
  match data with
  | [] => [r]
  | y :: rest =>
      if decide (row_le r y) then r :: y :: rest else y :: insert_row r rest
  end.

Definition stable_sort_values (data : Table) : Table :=
  foldr insert_row [] data.

(** An ascending sort that is not stable: a row goes behind the rows that
    are not larger, so rows with equal keys come out in reverse order.  It
    shows what the stability hypothesis is for. *)
Fixpoint insert_row_behind (r : Row) (data : Table) : Table :=
  match data with
  | [] => [r]
  | y :: rest =>
      if decide (row_le y r) then y :: insert_row_behind r rest
      else r :: y :: rest
  end.

Definition reversing_sort_values (data : Table) : Table :=
  foldr insert_row_behind [] data.

(** ** System enumeration: [assemble_list_of_systems] *)

(** [itertools.combinations(pool, r)]: the [r]-element subsequences of
    [pool], in lexicographic order of positions. *)
Fixpoint combinations {A : Type} (pool : list A) (r : nat) : list (list A) :=
  match r with
  | O => [[]]
  | S r' =>
      match pool with
      | [] => []
      | x :: rest => (cons x <$> combinations rest r') ++ combinations rest r
      end
  end.

(** One row of a candidate-system table: the columns ['elements'] (a tuple)
    and ['system']. *)
Record SystemRow : Type := mkSystemRow {
  sys_elements : list string;
  sys_system : string
}.

(** [element_list] is a global [set]; [combinations] iterates over it. *)
Definition assemble_list_of_systems
    (element_list : gset string) (order : nat) : list SystemRow :=
  (λ s, mkSystemRow s (join (sorted s)))
    <$> combinations (elements element_list) order.

(** The binomial coefficient C(n, k), by Pascal's rule. *)
Fixpoint choose (n k : nat) : nat :=
  match k, n with
  | O, _ => 1
  | S _, O => 0
  | S k', S n' => choose n' k' + choose n' k
  end.

(** ** The filter: [run_filter] and [list_of_interesting_compounds] *)

(** [set(systems[systems['elements'].apply(f)]['system'])] *)
Definition possible_systems
    (f : list string → bool) (systems : list SystemRow) : gset string :=
  list_to_set (sys_system <$> filter (λ row, f (sys_elements row) = true) systems).

(** [compounds[compounds['system'].apply(lambda x: x in possible_systems)]] *)
Definition results
    (f : list string → bool) (systems : list SystemRow) (compounds : Table) : Table :=
  filter (λ r, system r ∈ possible_systems f systems) compounds.

(** [df.head(n)] *)
Definition head (n : nat) (data : Table) : Table := take n data.

(** [results.head(2)['composition']]: the count is the literal 2; [ntop] is
    accepted and not read. *)
Definition top_comps
    (f : list string → bool) (systems : list SystemRow) (compounds : Table)
    (ntop : nat) : list string :=
  composition <$> head 2 (results f systems compounds).

(** The notebook's tables, by arity. *)
Inductive arity : Type := binary | ternary | quaternary.

(** The global objects a call of [run_filter] can reach: the candidate-system
    tables ([binary_systems], [ternary_systems], [quaternary_systems]), the
    deduplicated tables [dl_best], and the collector. *)
Record Globals : Type := mkGlobals {
  candidate_systems : arity → list SystemRow;
  dl_best : arity → Table;
  list_of_interesting_compounds : list string
}.

(** What a call prints: ['Found %d matches. Top 2: %s']. *)
Record Report : Type := mkReport {
  found : nat;
  top : list string
}.

(** How a call ends: it prints its report, or it raises. *)
Inductive Outcome : Type :=
  | Printed (report : Report)
  | KeyError (key : string).

(** [run_filter(f, systems, compounds, ntop)], the two tables given by
    reference.  It reads both tables, extends the global list with the
    selected compositions, and prints the report.

    On a table without rows [apply] returns a mask that is not boolean, so
    indexing the table with it selects columns (none), and the column
    lookup that follows raises: [KeyError: 'system'] for a candidate table
    without rows (in the line of [possible_systems]), and
    [KeyError: 'composition'] for a prediction table without rows (in the
    line of [top_comps]).  Both happen before the collector is touched. *)
Definition run_filter
    (f : list string → bool) (systems compounds : arity) (ntop : nat)
    (g : Globals) : Outcome * Globals :=
  match candidate_systems g systems with
  | [] => (KeyError "system", g)
  | _ :: _ =>
      match dl_best g compounds with
      | [] => (KeyError "composition", g)
      | _ :: _ =>
          let res := results f (candidate_systems g systems) (dl_best g compounds) in
          let tops :=
            top_comps f (candidate_systems g systems) (dl_best g compounds) ntop in
          (Printed (mkReport (length res) tops),
           mkGlobals (candidate_systems g) (dl_best g)
                     (list_of_interesting_compounds g ++ tops))
      end
  end.

(** One call in the notebook. *)
Record Invocation : Type := mkInvocation {
  inv_f : list string → bool;
  inv_systems : arity;
  inv_compounds : arity;
  inv_ntop : nat
}.

Definition invoke (g : Globals) (i : Invocation) : Globals :=
  snd (run_filter (inv_f i) (inv_systems i) (inv_compounds i) (inv_ntop i) g).

(** A sequence of calls, in order. *)
Definition run_filters (calls : list Invocation) (g : Globals) : Globals :=
  foldl invoke g calls.

(** What one call selects, on the tables of [g]. *)
Definition selected (g : Globals) (i : Invocation) : list string :=
  top_comps (inv_f i) (candidate_systems g (inv_systems i))
            (dl_best g (inv_compounds i)) (inv_ntop i).

(** ** Element lists and predicates *)

Definition alkali_metals : list string := ["Li"; "Na"; "K"].
Definition threed_tms : list string :=
  ["Sc"; "Ti"; "V"; "Cr"; "Mn"; "Fe"; "Co"; "Ni"; "Cu"; "Zn"].
Definition chalcogens : list string := ["O"; "S"; "Se"; "Te"].
Definition halogens : list string := ["F"; "Cl"; "Br"; "I"].

(** [h is not None and h < 5000], with [None] for Python's [None]. *)
Definition known_and_below_5000 (h : option Z) : bool :=
  match h with
  | Some v => bool_decide (v < 5000)%Z
  | None => false
  end.

(** [metals_no_highHHI]: the metals whose production index is known and
    below 5000.  [get_hhi_production] answers [None] for an element that the
    supply-risk table does not list. *)
Definition metals_no_highHHI
    (get_hhi_production : string → option Z) (metals : gset string) : gset string :=
  filter (λ e, known_and_below_5000 (get_hhi_production e) = true) metals.

(** [any([...])], [all([...])] and [sum([...])] over a list of booleans. *)
Definition any (bs : list bool) : bool := existsb id bs.
Definition all (bs : list bool) : bool := forallb id bs.
Definition sum (bs : list bool) : nat := length (filter (λ b, b = true) bs).

(** [e in xs] for a list and for a set. *)
Definition in_list (xs : list string) (e : string) : bool := bool_decide (e ∈ xs).
Definition in_set (xs : gset string) (e : string) : bool := bool_decide (e ∈ xs).

(** The predicates [f], in the order the notebook binds them.  The sets
    [metals] and [low_risk] ([metals_no_highHHI]) come from the chemistry
    reference data. *)
Definition f_alkali (els : list string) : bool :=
  any (in_list ["Li"; "Na"; "K"] <$> els).

Definition f_alkali_no_halogen (els : list string) : bool :=
  any (in_list ["Li"; "Na"; "K"] <$> els) && negb (any (in_list halogens <$> els)).

Definition f_chalcohalide (els : list string) : bool :=
  any (in_list chalcogens <$> els) && any (in_list halogens <$> els).

(** [e is 'O'] is an identity test; one-character strings are shared objects
    in CPython, so it decides equality with ["O"]. *)
Definition f_oxide (els : list string) : bool :=
  any ((λ e, bool_decide (e = "O")) <$> els).

Definition f_metal_oxide (metals : gset string) (els : list string) : bool :=
  f_oxide els && bool_decide (sum (in_set metals <$> els) = length els - 1).

Definition f_3d_oxide (els : list string) : bool :=
  f_oxide els && bool_decide (sum (in_list threed_tms <$> els) = length els - 1).

Definition f_intermetallic (metals : gset string) (els : list string) : bool :=
  all (in_set metals <$> els).

Definition f_intermetallic_low_hhi (low_risk : gset string) (els : list string) : bool :=
  all (in_set low_risk <$> els).

Definition f_intermetallic_3d (low_risk : gset string) (els : list string) : bool :=
  all (in_set low_risk <$> els) && bool_decide (1 < sum (in_list threed_tms <$> els)).

(** ** The rest of the pipeline *)

(** [data['system'] = data['composition'].apply(get_elems)]: every row gets
    the key of its composition; the other columns stay. *)
Definition assign_system (data : Table) : Table :=
  (λ r, mkRow (index r) (composition r) (delta_e r) (stability_predicted r)
              (get_elems (composition r))) <$> data.

Definition noble_gases : list string := ["He"; "Ne"; "Ar"; "Kr"; "Xe"].
Definition actinides : list string := ["Ac"; "Th"; "Pa"; "U"; "Np"; "Pu"].

(** [element_list = set()] and then, for every composition [x] of the
    ternary table, [element_list.update(elem_re.findall(x))]. *)
Definition collect_elements (compositions : list string) : gset string :=
  foldl (λ acc x, acc ∪ list_to_set (elem_re_findall x)) ∅ compositions.

(** [element_list.difference_update(xs)] *)
Definition difference_update (element_list : gset string) (xs : list string) :
    gset string :=
  element_list ∖ list_to_set xs.

(** The allowed elements: the collected ones without noble gases, actinides
    and lanthanides.  [lanthanides] is a set taken from the periodic table
    of the chemistry library. *)
Definition allowed_elements
    (lanthanides : gset string) (compositions : list string) : gset string :=
  difference_update (difference_update (collect_elements compositions) noble_gases)
                    actinides ∖ lanthanides.

(** The body of [assemble_list_of_systems] for a given iteration order
    [pool] of the set. *)
Definition systems_of_pool (pool : list string) (order : nat) : list SystemRow :=
  (λ s, mkSystemRow s (join (sorted s))) <$> combinations pool order.

(** [metals = tms.union({'Li','Na','K'}).union({'Al','Ga','In','Sn','Pb','Bi'})],
    with the transition metals [tms] taken from the chemistry library. *)
Definition metals_of (tms : gset string) : gset string :=
  tms ∪ list_to_set ["Li"; "Na"; "K"]
      ∪ list_to_set ["Al"; "Ga"; "In"; "Sn"; "Pb"; "Bi"].

(** ** A small table for the worked examples *)

Definition demo_predictions : Table :=
  [ mkRow 0 "Fe2O3" (Some (-150)%Z) (Some 30%Z) "FeO";
    mkRow 1 "FeO" (Some (-120)%Z) (Some 10%Z) "FeO";
    mkRow 2 "Al2O3" (Some (-300)%Z) (Some 10%Z) "AlO";
    mkRow 3 "Fe3O4" (Some (-140)%Z) (Some 10%Z) "FeO";
    mkRow 4 "AlO" (Some (-90)%Z) None "AlO" ].

Definition demo_systems : list SystemRow :=
  [ mkSystemRow ["Fe"; "O"] "FeO";
    mkSystemRow ["Al"; "O"] "AlO";
    mkSystemRow ["Li"; "O"] "LiO";
    mkSystemRow ["Fe"; "Li"] "FeLi" ].

Definition demo_best : Table :=
  [ mkRow 1 "FeO" (Some (-120)%Z) (Some 10%Z) "FeO";
    mkRow 2 "Al2O3" (Some (-300)%Z) (Some 10%Z) "AlO";
    mkRow 7 "Li2O" (Some (-200)%Z) (Some 25%Z) "LiO";
    mkRow 5 "FeLi" (Some (-10)%Z) (Some 40%Z) "FeLi" ].

Definition demo_globals : Globals :=
  mkGlobals (λ _, demo_systems) (λ _, demo_best) [].

(** * Properties *)

(** ** The order on the sort column *)

Global Instance ascending_refl : Reflexive ascending.
Proof. intros [a|]; simpl; [lia | done]. Qed.

Global Instance ascending_trans : Transitive ascending.
Proof. intros [a|] [b|] [c|]; simpl; try done; lia. Qed.

Global Instance ascending_antisymm : AntiSymm (=) ascending.
Proof. intros [a|] [b|]; simpl; try done. intros. f_equal; lia. Qed.

Global Instance ascending_total : Total ascending.
Proof. intros [a|] [b|]; simpl; try tauto; lia. Qed.

Lemma ascending_not_lt (x y : float64) : ascending x y → ¬ float_lt y x.
Proof. destruct x, y; simpl; try tauto; lia. Qed.

Global Instance row_le_refl : Reflexive row_le.
Proof. intros x; unfold row_le; reflexivity. Qed.

Global Instance row_le_trans : Transitive row_le.
Proof. intros x y z; unfold row_le; apply ascending_trans. Qed.

Global Instance row_le_total : Total row_le.
Proof. intros x y; unfold row_le; apply ascending_total. Qed.

(** ** The system key *)

Section key_facts.

Example get_elems_assert : get_elems "AlFeFe2" = "AlFe".
Proof. vm_compute. reflexivity. Qed.

Example get_elems_reordered : get_elems "FeAlFe" = "AlFe".
Proof. vm_compute. reflexivity. Qed.

Example findall_formula :
  elem_re_findall "Na2CrPbF5" = ["Na"; "Cr"; "Pb"; "F"].
Proof. reflexivity. Qed.

Lemma upper_not_lower c : is_upper c = true → is_lower c = false.
Proof.
  unfold is_upper, is_lower. intros H.
  apply andb_true_iff in H as [_ H]. apply Nat.leb_le in H.
  apply andb_false_iff. left. apply Nat.leb_gt. lia.
Qed.

(** Every match of the pattern is a symbol. *)
Lemma findall_symbols s : Forall (λ e, is_symbol e = true) (elem_re_findall s).
Proof.
  assert (∀ n s, (String.length s ≤ n)%nat →
                 Forall (λ e, is_symbol e = true) (elem_re_findall s)) as H.
  { clear s. induction n as [|n IH]; intros [|c s] Hn; simpl in *;
      try constructor; try lia.
    destruct (is_upper c) eqn:Hc; [|apply IH; lia].
    destruct s as [|d s]; [by repeat constructor; simpl|].
    destruct (is_lower d) eqn:Hd.
    - constructor; [simpl; by rewrite Hc, Hd|]. apply IH. simpl in Hn. lia.
    - constructor; [done|]. apply IH. lia. }
  by apply (H (String.length s)).
Qed.

(** A concatenation of symbols is empty or starts with an uppercase letter. *)
Lemma join_symbols_start xs :
  Forall (λ e, is_symbol e = true) xs →
  join xs = EmptyString ∨ ∃ c s, join xs = String c s ∧ is_upper c = true.
Proof.
  destruct 1 as [|e xs He _]; [by left|]. right.
  destruct e as [|c [|d [|??]]]; simpl in *; try done.
  - eauto.
  - apply andb_true_iff in He as [? _]. eauto.
Qed.

(** The pattern reads a concatenation of symbols back symbol by symbol. *)
Lemma findall_join xs :
  Forall (λ e, is_symbol e = true) xs → elem_re_findall (join xs) = xs.
Proof.
  induction 1 as [|e xs He Hxs IH]; [done|].
  destruct e as [|c [|d [|??]]]; simpl in He; try done.
  - change (join (String c EmptyString :: xs)) with (String c (join xs)).
    simpl. rewrite He.
    destruct (join_symbols_start xs Hxs) as [Hj|(d & s & Hj & Hd)].
    + rewrite Hj in *. simpl in IH. by rewrite <-IH.
    + rewrite Hj in *. rewrite (upper_not_lower _ Hd). by rewrite IH.
  - apply andb_true_iff in He as [Hc Hd].
    change (join (String c (String d EmptyString) :: xs))
      with (String c (String d (join xs))).
    simpl. by rewrite Hc, Hd, IH.
Qed.

Lemma sorted_Permutation xs : sorted xs ≡ₚ xs.
Proof. apply merge_sort_Permutation. Qed.

Lemma sorted_Sorted xs : Sorted String.le (sorted xs).
Proof. apply Sorted_merge_sort; apply _. Qed.

(** The key spells out the distinct symbols of the string, ascending. *)
Lemma get_elems_tokens s :
  let key := elem_re_findall (get_elems s) in
  Sorted String.le key ∧ NoDup key ∧ ∀ t, t ∈ key ↔ t ∈ elem_re_findall s.
Proof.
  unfold get_elems. simpl.
  set (X := list_to_set (elem_re_findall s) : gset string).
  assert (elem_re_findall (join (sorted (elements X))) = sorted (elements X)) as ->.
  { apply findall_join. rewrite sorted_Permutation.
    apply Forall_forall. intros e He. apply elem_of_elements in He.
    unfold X in He. apply elem_of_list_to_set in He.
    revert e He. apply Forall_forall, findall_symbols. }
  split; [apply sorted_Sorted|]. split.
  - rewrite sorted_Permutation. apply NoDup_elements.
  - intros t. rewrite sorted_Permutation, elem_of_elements.
    unfold X. by rewrite elem_of_list_to_set.
Qed.

End key_facts.

(** The key of a string is the concatenation of its distinct symbols in
    ascending order, in whatever order the set hands them to [sorted]. *)
Lemma get_elems_any_listing (s : string) (listing : list string) :
  NoDup listing → (∀ t, t ∈ listing ↔ t ∈ elem_re_findall s) →
  get_elems s = join (sorted listing).
Proof.
  intros Hnd Hsame. unfold get_elems. f_equal.
  apply (Sorted_unique String.le); try apply sorted_Sorted.
  rewrite !sorted_Permutation.
  apply NoDup_Permutation; [apply NoDup_elements|done|].
  intros t. by rewrite elem_of_elements, elem_of_list_to_set, Hsame.
Qed.

(** C3. Two composition strings whose matches of [[A-Z][a-z]?] have the same
    distinct symbols get the same system key from [get_elems]: the key is
    the concatenation, in ascending order, of any duplicate-free listing of
    these symbols, so it depends neither on the order of the tokens, nor on
    how often one repeats, nor on the order in which the set is iterated;
    ["AlFeFe2"] and ["FeAlFe"] both get ["AlFe"]. *)
Theorem get_elems_same_symbols (s1 s2 : string) :
  (∀ t, t ∈ elem_re_findall s1 ↔ t ∈ elem_re_findall s2) →
  get_elems s1 = get_elems s2 ∧
  (∀ listing, NoDup listing → (∀ t, t ∈ listing ↔ t ∈ elem_re_findall s1) →
              get_elems s1 = join (sorted listing) ∧
              get_elems s2 = join (sorted listing)) ∧
  (∀ key, Sorted String.le key → NoDup key →
          (∀ t, t ∈ key ↔ t ∈ elem_re_findall s1) →
          get_elems s1 = join key ∧ get_elems s2 = join key) ∧
  get_elems "AlFeFe2" = "AlFe" ∧ get_elems "FeAlFe" = "AlFe".
Proof.
  intros Hsame.
  assert (∀ listing, NoDup listing →
            (∀ t, t ∈ listing ↔ t ∈ elem_re_findall s1) →
            get_elems s1 = join (sorted listing) ∧
            get_elems s2 = join (sorted listing)) as Hlisting.
  { intros listing Hnd Hl. split; apply get_elems_any_listing; [done..|].
    intros t. by rewrite Hl, Hsame. }
  split_and!.
  - destruct (Hlisting (elements (list_to_set (elem_re_findall s1) : gset string)))
      as [-> ->]; [apply NoDup_elements| |done].
    intros t. by rewrite elem_of_elements, elem_of_list_to_set.
  - done.
  - intros key Hsorted Hnd Hkey.
    destruct (Hlisting key Hnd Hkey) as [-> ->].
    assert (sorted key = key) as ->; [|done].
    apply (Sorted_unique String.le); [apply sorted_Sorted|done|].
    apply sorted_Permutation.
  - by vm_compute.
  - by vm_compute.
Qed.

Lemma get_elems_same_symbols_witness :
  (∀ t, t ∈ elem_re_findall "AlFeFe2" ↔ t ∈ elem_re_findall "FeAlFe") ∧
  get_elems "AlFeFe2" = get_elems "FeAlFe" ∧
  get_elems "AlFeFe2" = join (sorted ["Fe"; "Al"]) ∧
  get_elems "FeAlFe" = join ["Al"; "Fe"].
Proof.
  assert (∀ t, t ∈ elem_re_findall "AlFeFe2" ↔ t ∈ elem_re_findall "FeAlFe") as H.
  { intros t. simpl. rewrite !elem_of_cons. rewrite elem_of_nil. tauto. }
  destruct (get_elems_same_symbols "AlFeFe2" "FeAlFe" H)
    as (Heq & Hlisting & Hkey & _ & _).
  split; [exact H|]. split; [exact Heq|]. split.
  - apply (Hlisting ["Fe"; "Al"]).
    + apply (bool_decide_unpack _). by vm_compute.
    + intros t. simpl. rewrite !elem_of_cons, elem_of_nil. tauto.
  - apply (Hkey ["Al"; "Fe"]).
    + apply (bool_decide_unpack _). by vm_compute.
    + apply (bool_decide_unpack _). by vm_compute.
    + intros t. simpl. rewrite !elem_of_cons, elem_of_nil. tauto.
Defined.

(** ** Deduplication *)

Section drop_duplicates_facts.

Implicit Types (seen : gset string) (data : Table) (r x : Row).

(** A row is kept exactly at an occurrence that no row of the same system
    precedes. *)
Lemma elem_of_drop_duplicates_from seen data r :
  r ∈ drop_duplicates_from seen data ↔
  ∃ l1 l2, data = l1 ++ (r :: l2) ∧ (system r ∉ seen) ∧
           (∀ x, x ∈ l1 → system x ≠ system r).
Proof.
  revert seen. induction data as [|y rest IH]; intros seen; simpl.
  { split; [by intros ?%elem_of_nil|]. intros ([|??] & ? & ? & _); done. }
  case_decide as Hy.
  - rewrite IH. split.
    + intros (l1 & l2 & -> & Hr & Hl1). exists (y :: l1), l2.
      split_and!; [done..|]. intros x [->|?]%elem_of_cons; [congruence|auto].
    + intros ([|z l1] & l2 & Heq & Hr & Hl1); simplify_eq/=; [done|].
      exists l1, l2. split_and!; [done..|]. intros x ?. apply Hl1. by right.
  - rewrite elem_of_cons, IH. split.
    + intros [->|(l1 & l2 & -> & Hr & Hl1)].
      * exists [], rest. split_and!; [done..|]. by intros ? ?%elem_of_nil.
      * exists (y :: l1), l2. split_and!; [done|set_solver|].
        intros x [->|?]%elem_of_cons; [set_solver|auto].
    + intros ([|z l1] & l2 & Heq & Hr & Hl1); simplify_eq/=; [by left|].
      right. exists l1, l2. split_and!; [done| |].
      * assert (system z ≠ system r) by (apply Hl1; by left). set_solver.
      * intros x ?. apply Hl1. by right.
Qed.

Lemma elem_of_drop_duplicates data r :
  r ∈ drop_duplicates data ↔
  ∃ l1 l2, data = l1 ++ (r :: l2) ∧ (∀ x, x ∈ l1 → system x ≠ system r).
Proof.
  unfold drop_duplicates. rewrite elem_of_drop_duplicates_from.
  split; intros (l1 & l2 & H); exists l1, l2; set_solver.
Qed.

Lemma drop_duplicates_from_subseteq seen data r :
  r ∈ drop_duplicates_from seen data → r ∈ data.
Proof.
  rewrite elem_of_drop_duplicates_from. intros (l1 & l2 & -> & _).
  set_solver.
Qed.

Lemma drop_duplicates_from_fresh seen data r :
  r ∈ drop_duplicates_from seen data → system r ∉ seen.
Proof. rewrite elem_of_drop_duplicates_from. naive_solver. Qed.

(** No system occurs twice in the result. *)
Lemma drop_duplicates_from_NoDup seen data :
  NoDup (system <$> drop_duplicates_from seen data).
Proof.
  revert seen. induction data as [|y rest IH]; intros seen; simpl.
  { constructor. }
  case_decide; [apply IH|]. csimpl. constructor; [|apply IH].
  intros (x & Hx & Hin)%list_elem_of_fmap.
  apply drop_duplicates_from_fresh in Hin. set_solver.
Qed.

(** Every system of the input that was not seen before is in the result. *)
Lemma drop_duplicates_from_covers seen data x :
  x ∈ data → system x ∉ seen →
  ∃ r, r ∈ drop_duplicates_from seen data ∧ system r = system x.
Proof.
  revert seen. induction data as [|y rest IH]; intros seen Hx Hs.
  { by apply elem_of_nil in Hx. }
  simpl. apply elem_of_cons in Hx as [->|Hx].
  - rewrite decide_False by done. exists y. split; [by left|done].
  - case_decide; [by apply IH|].
    destruct (decide (system x = system y)) as [Heq|Hne].
    + exists y. split; [by left|done].
    + destruct (IH ({[system y]} ∪ seen) Hx) as (r & ? & ?); [set_solver|].
      exists r. split; [by right|done].
Qed.

(** A table without repeated systems is left as it is. *)
Lemma drop_duplicates_from_id seen data :
  NoDup (system <$> data) → (∀ x, x ∈ data → system x ∉ seen) →
  drop_duplicates_from seen data = data.
Proof.
  revert seen. induction data as [|y rest IH]; intros seen Hnd Hs; [done|].
  csimpl in Hnd. apply NoDup_cons in Hnd as [Hy Hnd].
  simpl. rewrite decide_False by (apply Hs; by left).
  f_equal. apply IH; [done|]. intros x Hx.
  assert (system x ≠ system y).
  { intros Heq. apply Hy. rewrite <-Heq. by apply list_elem_of_fmap_2. }
  assert (system x ∉ seen) by (apply Hs; by right). set_solver.
Qed.

Lemma drop_duplicates_from_StronglySorted seen data :
  StronglySorted row_le data →
  StronglySorted row_le (drop_duplicates_from seen data).
Proof.
  revert seen. induction data as [|y rest IH]; intros seen Hs; [done|].
  simpl. apply StronglySorted_cons in Hs as [Hy Hs].
  case_decide; [by apply IH|]. constructor; [by apply IH|].
  apply Forall_forall. intros x Hx%drop_duplicates_from_subseteq.
  revert x Hx. by apply Forall_forall.
Qed.

(** Two rows of one system in a table without repeated systems are the
    same row. *)
Lemma NoDup_system_eq data r x :
  NoDup (system <$> data) → r ∈ data → x ∈ data → system x = system r → x = r.
Proof.
  induction data as [|y rest IH]; intros Hnd Hr Hx Heq.
  { by apply elem_of_nil in Hr. }
  csimpl in Hnd. apply NoDup_cons in Hnd as [Hy Hnd].
  apply elem_of_cons in Hr as [->|Hr]; apply elem_of_cons in Hx as [->|Hx];
    [done| | |by apply IH].
  - exfalso. apply Hy. rewrite <-Heq. by apply list_elem_of_fmap_2.
  - exfalso. apply Hy. rewrite Heq. by apply list_elem_of_fmap_2.
Qed.

End drop_duplicates_facts.

Section sorting_facts.

Implicit Types (data : Table) (r x : Row) (v : float64).

Lemma rows_with_cons v r data :
  rows_with v (r :: data) =
    if decide (stability_predicted r = v) then r :: rows_with v data
    else rows_with v data.
Proof. unfold rows_with. by rewrite filter_cons. Qed.

Lemma elem_of_rows_with v data r :
  r ∈ rows_with v data ↔ stability_predicted r = v ∧ r ∈ data.
Proof. unfold rows_with. by rewrite list_elem_of_filter. Qed.

(** Splitting a table where its filtered image splits. *)
Lemma rows_with_split v data F1 r F2 :
  rows_with v data = F1 ++ r :: F2 →
  ∃ s1 s2, data = s1 ++ (r :: s2) ∧ rows_with v s1 = F1 ∧ rows_with v s2 = F2.
Proof.
  revert F1. induction data as [|y rest IH]; intros F1 Heq.
  { by destruct F1. }
  rewrite rows_with_cons in Heq. case_decide as Hy.
  - destruct F1 as [|z F1]; simplify_eq/=.
    + by exists [], rest.
    + destruct (IH F1) as (s1 & s2 & -> & <- & <-); [done|].
      exists (z :: s1), s2. split_and!; [done| |done].
      by rewrite rows_with_cons, decide_True.
  - destruct (IH F1 Heq) as (s1 & s2 & -> & <- & <-).
    exists (y :: s1), s2. split_and!; [done| |done].
    by rewrite rows_with_cons, decide_False.
Qed.

(** Two ascending tables that list the rows of every key in the same order
    are the same table. *)
Lemma ascending_tables_eq data1 data2 :
  StronglySorted row_le data1 → StronglySorted row_le data2 →
  (∀ v, rows_with v data1 = rows_with v data2) → data1 = data2.
Proof.
  intros Hs1. revert data2.
  induction Hs1 as [|a l1 Hs1 IH Ha]; intros data2 Hs2 Hkeys.
  { destruct data2 as [|b l2]; [done|].
    specialize (Hkeys (stability_predicted b)).
    by rewrite rows_with_cons, decide_True in Hkeys. }
  destruct Hs2 as [|b l2 Hs2 Hb].
  { specialize (Hkeys (stability_predicted a)).
    by rewrite rows_with_cons, decide_True in Hkeys. }
  assert (row_le a b ∧ row_le b a) as [Hab Hba].
  { split.
    - assert (b ∈ rows_with (stability_predicted b) (a :: l1)) as Hin.
      { rewrite Hkeys. apply elem_of_rows_with. split; [done|by left]. }
      apply elem_of_rows_with in Hin as [_ [->|Hin]%elem_of_cons]; [done|].
      rewrite Forall_forall in Ha. by apply Ha.
    - assert (a ∈ rows_with (stability_predicted a) (b :: l2)) as Hin.
      { rewrite <-Hkeys. apply elem_of_rows_with. split; [done|by left]. }
      apply elem_of_rows_with in Hin as [_ [->|Hin]%elem_of_cons]; [done|].
      rewrite Forall_forall in Hb. by apply Hb. }
  assert (stability_predicted a = stability_predicted b) as Hkey
    by (by apply (anti_symm ascending)).
  assert (a = b) as ->.
  { specialize (Hkeys (stability_predicted a)).
    rewrite !rows_with_cons, !decide_True in Hkeys by done. congruence. }
  f_equal. apply IH; [done|]. intros v. specialize (Hkeys v).
  rewrite !rows_with_cons in Hkeys. case_decide; congruence.
Qed.

(** The insertion sort is ascending and stable. *)
Lemma insert_row_Permutation r data : insert_row r data ≡ₚ r :: data.
Proof.
  induction data as [|y rest IH]; simpl; [done|].
  case_decide; [done|]. by rewrite IH, Permutation_swap.
Qed.

Lemma insert_row_Sorted r data :
  Sorted row_le data → Sorted row_le (insert_row r data).
Proof.
  induction 1 as [|y rest Hs IH Hy]; simpl; [by repeat constructor|].
  case_decide as Hr; [by repeat constructor|].
  apply total_not in Hr. constructor; [done|].
  destruct Hy as [|z rest' Hz]; simpl; [by constructor|].
  case_decide; by constructor.
Qed.

Lemma insert_row_rows_with v r data :
  rows_with v (insert_row r data) = rows_with v (r :: data).
Proof.
  induction data as [|y rest IH]; simpl; [done|].
  case_decide as Hr; [done|].
  rewrite (rows_with_cons _ y), IH, !rows_with_cons.
  repeat case_decide; try done.
  exfalso. apply Hr. unfold row_le.
  replace (stability_predicted y) with (stability_predicted r) by congruence.
  reflexivity.
Qed.

Lemma stable_sort_values_sorts : sorts_ascending stable_sort_values.
Proof.
  intros data. induction data as [|r rest [IHp IHs]]; simpl.
  { split; [done|constructor]. }
  split; [by rewrite insert_row_Permutation, IHp|by apply insert_row_Sorted].
Qed.

Lemma insert_row_behind_Permutation r data :
  insert_row_behind r data ≡ₚ r :: data.
Proof.
  induction data as [|y rest IH]; simpl; [done|].
  case_decide; [|done]. by rewrite IH, Permutation_swap.
Qed.

Lemma insert_row_behind_Sorted r data :
  Sorted row_le data → Sorted row_le (insert_row_behind r data).
Proof.
  induction 1 as [|y rest Hs IH Hy]; simpl; [by repeat constructor|].
  case_decide as Hr.
  - constructor; [done|].
    destruct Hy as [|z rest' Hz]; simpl; [by constructor|].
    case_decide; by constructor.
  - apply total_not in Hr. by repeat constructor.
Qed.

Lemma reversing_sort_values_sorts : sorts_ascending reversing_sort_values.
Proof.
  intros data. induction data as [|r rest [IHp IHs]]; simpl.
  { split; [done|constructor]. }
  split; [by rewrite insert_row_behind_Permutation, IHp|].
  by apply insert_row_behind_Sorted.
Qed.

Lemma stable_sort_values_stable : stable stable_sort_values.
Proof.
  intros data v. induction data as [|r rest IH]; simpl; [done|].
  rewrite insert_row_rows_with, !rows_with_cons. by rewrite IH.
Qed.

(** A stable ascending sort leaves an ascending table as it is. *)
Lemma sort_values_ascending_id sort_values data :
  sorts_ascending sort_values → stable sort_values →
  StronglySorted row_le data → sort_values data = data.
Proof.
  intros Hsort Hstable Hdata. apply ascending_tables_eq; [|done|].
  - apply Sorted_StronglySorted; [apply _|]. apply Hsort.
  - intros v. apply Hstable.
Qed.

End sorting_facts.

Section get_most_stable_facts.

Variable sort_values : Table → Table.
Hypothesis sort_ok : sorts_ascending sort_values.

Lemma sort_values_elem_of data r : r ∈ sort_values data ↔ r ∈ data.
Proof. by rewrite (proj1 (sort_ok data)). Qed.

Lemma sort_values_StronglySorted data :
  StronglySorted row_le (sort_values data).
Proof. apply Sorted_StronglySorted; [apply _|]. apply sort_ok. Qed.

Lemma get_most_stable_subseteq data r :
  r ∈ get_most_stable sort_values data → r ∈ data.
Proof.
  intros Hr%drop_duplicates_from_subseteq. by apply sort_values_elem_of.
Qed.

Lemma get_most_stable_NoDup data :
  NoDup (system <$> get_most_stable sort_values data).
Proof. apply drop_duplicates_from_NoDup. Qed.

Lemma get_most_stable_StronglySorted data :
  StronglySorted row_le (get_most_stable sort_values data).
Proof.
  apply drop_duplicates_from_StronglySorted, sort_values_StronglySorted.
Qed.

(** The kept row sorts no later than any row of its system. *)
Lemma get_most_stable_least data r x :
  r ∈ get_most_stable sort_values data → x ∈ data → system x = system r →
  row_le r x.
Proof.
  intros (l1 & l2 & Heq & Hl1)%elem_of_drop_duplicates Hx Hsys.
  apply sort_values_elem_of in Hx. rewrite Heq in Hx.
  apply elem_of_app in Hx as [Hx|Hx]; [by apply Hl1 in Hx|].
  apply elem_of_cons in Hx as [->|Hx]; [done|].
  pose proof (sort_values_StronglySorted data) as Hs. rewrite Heq in Hs.
  apply StronglySorted_app_1_r, StronglySorted_cons in Hs as [Hr _].
  rewrite Forall_forall in Hr. by apply Hr.
Qed.

End get_most_stable_facts.

(** C2. For every table and every system key in it, [get_most_stable] keeps
    one row of that key, a row of the input, and no row of the input with
    the same system has a strictly lower predicted instability.  This holds
    for every [sort_values] that returns the rows in ascending order. *)
Theorem get_most_stable_minimum (sort_values : Table → Table) (data : Table) :
  sorts_ascending sort_values →
  let best := get_most_stable sort_values data in
  (∀ k, k ∈ system <$> data → ∃ r, r ∈ best ∧ system r = k) ∧
  NoDup (system <$> best) ∧
  (∀ r, r ∈ best →
        r ∈ data ∧
        ∀ x, x ∈ data → system x = system r →
             ¬ float_lt (stability_predicted x) (stability_predicted r)).
Proof.
  intros Hsort best. split_and!.
  - intros k (x & -> & Hx)%list_elem_of_fmap.
    apply (sort_values_elem_of _ Hsort) in Hx.
    apply (drop_duplicates_from_covers ∅) in Hx as (r & ? & ?); [|set_solver].
    by exists r.
  - by apply get_most_stable_NoDup.
  - intros r Hr. split; [by eapply get_most_stable_subseteq|].
    intros x Hx Hsys. apply ascending_not_lt.
    by eapply (get_most_stable_least _ Hsort).
Qed.

Lemma get_most_stable_minimum_witness :
  sorts_ascending stable_sort_values ∧
  let best := get_most_stable stable_sort_values demo_predictions in
  (∀ k, k ∈ system <$> demo_predictions → ∃ r, r ∈ best ∧ system r = k) ∧
  NoDup (system <$> best) ∧
  (∀ r, r ∈ best →
        r ∈ demo_predictions ∧
        ∀ x, x ∈ demo_predictions → system x = system r →
             ¬ float_lt (stability_predicted x) (stability_predicted r)).
Proof.
  split; [exact stable_sort_values_sorts|].
  exact (get_most_stable_minimum stable_sort_values demo_predictions
           stable_sort_values_sorts).
Defined.

Example get_most_stable_demo :
  get_most_stable stable_sort_values demo_predictions =
    [ mkRow 1 "FeO" (Some (-120)%Z) (Some 10%Z) "FeO";
      mkRow 2 "Al2O3" (Some (-300)%Z) (Some 10%Z) "AlO" ].
Proof. vm_compute. reflexivity. Qed.

(** Which of several rows with the least value is kept is decided by the
    sort: with the reversing sort the last of them is kept, and a second
    pass turns the table around once more. *)
Example ties_follow_the_sort :
  get_most_stable reversing_sort_values demo_predictions =
    [ mkRow 3 "Fe3O4" (Some (-140)%Z) (Some 10%Z) "FeO";
      mkRow 2 "Al2O3" (Some (-300)%Z) (Some 10%Z) "AlO" ] ∧
  get_most_stable reversing_sort_values
    (get_most_stable reversing_sort_values demo_predictions) =
    [ mkRow 2 "Al2O3" (Some (-300)%Z) (Some 10%Z) "AlO";
      mkRow 3 "Fe3O4" (Some (-140)%Z) (Some 10%Z) "FeO" ].
Proof. split; by vm_compute. Qed.

(** C4 as stated fails: the call asks for an ascending sort and leaves the
    order of rows with equal values to the algorithm.  With an ascending
    sort that does not keep that order, the second pass turns tied rows of
    different systems around, so the output of the output is another
    table. *)
Lemma get_most_stable_not_idempotent :
  ¬ (∀ sort_values : Table → Table, sorts_ascending sort_values →
       ∀ data : Table,
         get_most_stable sort_values (get_most_stable sort_values data) =
           get_most_stable sort_values data).
Proof.
  intros H.
  specialize (H reversing_sort_values reversing_sort_values_sorts demo_predictions).
  vm_compute in H. discriminate H.
Qed.

(** C4, amended. Applied to its own output, [get_most_stable] returns the
    same rows, still one per system and ascending: the output sorted once
    more.  It is the same table whenever the sort keeps rows with equal
    values in their order, and whenever no two rows of the output have the
    same value. *)
Theorem get_most_stable_twice (sort_values : Table → Table) (data : Table) :
  sorts_ascending sort_values →
  let best := get_most_stable sort_values data in
  get_most_stable sort_values best = sort_values best ∧
  get_most_stable sort_values best ≡ₚ best ∧
  (stable sort_values → get_most_stable sort_values best = best) ∧
  ((∀ x y, x ∈ best → y ∈ best →
           stability_predicted x = stability_predicted y → x = y) →
   get_most_stable sort_values best = best).
Proof.
  intros Hsort best.
  assert (get_most_stable sort_values best = sort_values best) as Hagain.
  { apply drop_duplicates_from_id; [|set_solver].
    rewrite (proj1 (Hsort best)). by apply get_most_stable_NoDup. }
  rewrite Hagain. split_and!.
  - done.
  - apply Hsort.
  - intros Hstable. apply sort_values_ascending_id; [done..|].
    by apply get_most_stable_StronglySorted.
  - intros Hties. apply (StronglySorted_unique_strong row_le).
    + intros x y Hx Hy Hxy Hyx.
      apply (proj1 (sort_values_elem_of _ Hsort _ _)) in Hx.
      apply (Hties x y Hx Hy). apply (anti_symm ascending); [exact Hxy|exact Hyx].
    + by apply sort_values_StronglySorted.
    + by apply get_most_stable_StronglySorted.
    + apply Hsort.
Qed.

Lemma get_most_stable_twice_witness :
  sorts_ascending stable_sort_values ∧ stable stable_sort_values ∧
  get_most_stable stable_sort_values
    (get_most_stable stable_sort_values demo_predictions) =
    get_most_stable stable_sort_values demo_predictions ∧
  get_most_stable reversing_sort_values
    (get_most_stable reversing_sort_values demo_predictions) ≡ₚ
    get_most_stable reversing_sort_values demo_predictions.
Proof.
  split; [exact stable_sort_values_sorts|].
  split; [exact stable_sort_values_stable|]. split.
  - exact (proj1 (proj2 (proj2 (get_most_stable_twice stable_sort_values
             demo_predictions stable_sort_values_sorts)))
             stable_sort_values_stable).
  - exact (proj1 (proj2 (get_most_stable_twice reversing_sort_values
             demo_predictions reversing_sort_values_sorts))).
Defined.

(** C6 as stated fails: which of the rows that share the least value of a
    system is kept is decided by the order the sort gives them.  With an
    ascending sort that does not keep the input order of equal values, the
    row kept for the system is a later one of them, not the first. *)
Lemma get_most_stable_keeps_later_tie :
  ¬ (∀ sort_values : Table → Table, sorts_ascending sort_values →
       ∀ (before after : Table) (r : Row),
         (∀ x, x ∈ before ++ r :: after → system x = system r → row_le r x) →
         (∀ x, x ∈ before → system x = system r →
               stability_predicted x ≠ stability_predicted r) →
         r ∈ get_most_stable sort_values (before ++ r :: after)).
Proof.
  intros H.
  specialize (H reversing_sort_values reversing_sort_values_sorts
                [mkRow 0 "Fe2O3" (Some (-150)%Z) (Some 30%Z) "FeO"]
                [ mkRow 2 "Al2O3" (Some (-300)%Z) (Some 10%Z) "AlO";
                  mkRow 3 "Fe3O4" (Some (-140)%Z) (Some 10%Z) "FeO";
                  mkRow 4 "AlO" (Some (-90)%Z) None "AlO" ]
                (mkRow 1 "FeO" (Some (-120)%Z) (Some 10%Z) "FeO")).
  assert (mkRow 1 "FeO" (Some (-120)%Z) (Some 10%Z) "FeO" ∉
          get_most_stable reversing_sort_values demo_predictions) as Hout.
  { replace (get_most_stable reversing_sort_values demo_predictions) with
      [ mkRow 3 "Fe3O4" (Some (-140)%Z) (Some 10%Z) "FeO";
        mkRow 2 "Al2O3" (Some (-300)%Z) (Some 10%Z) "AlO" ] by (by vm_compute).
    intros Hin.
    repeat (apply elem_of_cons in Hin as [Hin|Hin]); try discriminate Hin.
    by apply elem_of_nil in Hin. }
  apply Hout, H.
  - intros x Hx Hsys.
    repeat (apply elem_of_cons in Hx as [->|Hx]); try by apply elem_of_nil in Hx.
    all: try discriminate Hsys; unfold row_le; simpl; lia.
  - intros x Hx Hsys.
    repeat (apply elem_of_cons in Hx as [->|Hx]); try by apply elem_of_nil in Hx.
    simpl. discriminate.
Qed.

(** C6, amended. Among the rows of one system that share the least
    predicted instability of that system, [get_most_stable] keeps exactly
    one: the one that the sort puts first.  It is the one that comes first
    in the input whenever the sort keeps rows with equal values in their
    order.  Here [r] stands in [data] after [before], sorts no later than
    any row of its system, and no row of its system in [before] has the
    same value. *)
Theorem get_most_stable_tie_break
    (sort_values : Table → Table) (before after : Table) (r : Row) :
  sorts_ascending sort_values →
  let data := before ++ r :: after in
  (∀ x, x ∈ data → system x = system r → row_le r x) →
  (∀ x, x ∈ before → system x = system r →
        stability_predicted x ≠ stability_predicted r) →
  (∃ b, b ∈ get_most_stable sort_values data ∧ b ∈ data ∧
        system b = system r ∧ stability_predicted b = stability_predicted r ∧
        (∃ l1 l2, sort_values data = l1 ++ (b :: l2) ∧
                  ∀ x, x ∈ l1 → system x ≠ system b) ∧
        (∀ x, x ∈ get_most_stable sort_values data → system x = system r →
              x = b)) ∧
  (stable sort_values →
   r ∈ get_most_stable sort_values data ∧
   ∀ x, x ∈ get_most_stable sort_values data → system x = system r → x = r).
Proof.
  intros Hsort data Hmin Hfirst.
  assert (r ∈ data) as Hr by (unfold data; set_solver).
  assert (∀ b x, b ∈ get_most_stable sort_values data →
            x ∈ get_most_stable sort_values data → system x = system b → x = b)
    as Huniq.
  { intros b x Hb Hx Hsys.
    by eapply NoDup_system_eq; [apply (get_most_stable_NoDup sort_values data)|..]. }
  split.
  - pose proof (proj2 (sort_values_elem_of _ Hsort _ _) Hr) as Hs.
    apply (drop_duplicates_from_covers ∅) in Hs as (b & Hb & Hsys); [|set_solver].
    pose proof (get_most_stable_subseteq _ Hsort _ _ Hb) as Hbd.
    exists b. split_and!; [done|done|done| | |].
    + apply (anti_symm ascending).
      * by apply (get_most_stable_least _ Hsort data b r).
      * apply Hmin; [done|]. done.
    + by apply elem_of_drop_duplicates.
    + intros x Hx Hxs. apply Huniq; [done..|]. by rewrite Hxs.
  - intros Hstable.
    assert (r ∈ get_most_stable sort_values data) as Hin.
    { pose proof (Hstable data (stability_predicted r)) as Hrows.
      unfold data in Hrows at 2. unfold rows_with in Hrows at 2.
      rewrite filter_app, filter_cons, decide_True in Hrows by done.
      apply rows_with_split in Hrows as (s1 & s2 & Heq & Hs1 & _).
      apply elem_of_drop_duplicates. exists s1, s2. split; [done|].
      intros x Hx Hsys.
      assert (x ∈ data) as Hxd.
      { apply (sort_values_elem_of _ Hsort). rewrite Heq. set_solver. }
      assert (stability_predicted x = stability_predicted r) as Hkey.
      { apply (anti_symm ascending); [|by apply Hmin].
        pose proof (sort_values_StronglySorted _ Hsort data) as Hs.
        rewrite Heq in Hs.
        apply (StronglySorted_app_1_elem_of _ _ _ x r) in Hs; [done..|by left]. }
      assert (x ∈ rows_with (stability_predicted r) s1) as Hin
        by (by apply elem_of_rows_with).
      rewrite Hs1 in Hin. apply list_elem_of_filter in Hin as [_ Hin].
      by apply (Hfirst x). }
    split; [done|]. intros x Hx Hsys. by apply Huniq.
Qed.

Lemma get_most_stable_tie_break_witness :
  let before := [mkRow 0 "Fe2O3" (Some (-150)%Z) (Some 30%Z) "FeO"] in
  let r := mkRow 1 "FeO" (Some (-120)%Z) (Some 10%Z) "FeO" in
  let after := [ mkRow 2 "Al2O3" (Some (-300)%Z) (Some 10%Z) "AlO";
                 mkRow 3 "Fe3O4" (Some (-140)%Z) (Some 10%Z) "FeO";
                 mkRow 4 "AlO" (Some (-90)%Z) None "AlO" ] in
  sorts_ascending stable_sort_values ∧ stable stable_sort_values ∧
  r ∈ get_most_stable stable_sort_values (before ++ r :: after) ∧
  ∃ b, b ∈ get_most_stable reversing_sort_values (before ++ r :: after) ∧
       system b = system r ∧ stability_predicted b = stability_predicted r.
Proof.
  intros before r after.
  assert (∀ x, x ∈ before ++ r :: after → system x = system r → row_le r x)
    as Hmin.
  { intros x Hx Hsys. unfold before, r, after in *.
    repeat (apply elem_of_cons in Hx as [->|Hx]); try by apply elem_of_nil in Hx.
    all: try discriminate Hsys; unfold row_le; simpl; lia. }
  assert (∀ x, x ∈ before → system x = system r →
               stability_predicted x ≠ stability_predicted r) as Hfirst.
  { intros x Hx Hsys. unfold before, r in *.
    repeat (apply elem_of_cons in Hx as [->|Hx]); try by apply elem_of_nil in Hx.
    simpl. discriminate. }
  split; [exact stable_sort_values_sorts|].
  split; [exact stable_sort_values_stable|]. split.
  - exact (proj1 (proj2 (get_most_stable_tie_break stable_sort_values before
             after r stable_sort_values_sorts Hmin Hfirst)
             stable_sort_values_stable)).
  - destruct (proj1 (get_most_stable_tie_break reversing_sort_values before
                 after r reversing_sort_values_sorts Hmin Hfirst))
      as (b & Hb & _ & Hsys & Hkey & _).
    exists b. by split_and!.
Defined.

(** ** System enumeration *)

Section choose_facts.

(** [choose] is the binomial coefficient: n! = C(n, k) k! (n - k)!. *)
Lemma choose_gt (n k : nat) : (n < k)%nat → choose n k = 0.
Proof.
  revert k. induction n as [|n IH]; intros [|k] Hk; simpl; try lia.
  rewrite !IH by lia. done.
Qed.

Lemma choose_diag (n : nat) : choose n n = 1.
Proof. induction n as [|n IH]; simpl; [done|]. rewrite IH, choose_gt; lia. Qed.

Lemma choose_fact (n k : nat) :
  (k ≤ n)%nat → choose n k * (fact k * fact (n - k)) = fact n.
Proof.
  revert k. induction n as [|n IH]; intros [|k] Hk; try (simpl; lia).
  destruct (decide (k = n)) as [->|Hne].
  { change (choose (S n) (S n)) with (choose n n + choose n (S n)).
    rewrite choose_diag, choose_gt by lia.
    replace (S n - S n) with 0 by lia. simpl fact at 2. lia. }
  pose proof (IH k ltac:(lia)) as IH1.
  pose proof (IH (S k) ltac:(lia)) as IH2.
  change (choose (S n) (S k)) with (choose n k + choose n (S k)).
  replace (S n - S k) with (n - k) by lia.
  replace (n - k) with (S (n - S k)) in * by lia.
  change (fact (S n)) with (S n * fact n).
  change (fact (S k)) with (S k * fact k) in *.
  change (fact (S (n - S k))) with (S (n - S k) * fact (n - S k)) in *.
  set (a := choose n k) in *. set (b := choose n (S k)) in *.
  set (fk := fact k) in *. set (fd := fact (n - S k)) in *.
  set (fn := fact n) in *.
  replace (S n) with (S k + S (n - S k)) by lia.
  set (d := S (n - S k)) in *. nia.
Qed.

End choose_facts.

Section combinations_facts.

Context {A : Type}.
Implicit Types (pool c : list A) (r : nat).

Lemma length_combinations pool r :
  length (combinations pool r) = choose (length pool) r.
Proof.
  revert r. induction pool as [|x rest IH]; intros [|r]; simpl; try done.
  by rewrite length_app, length_fmap, !IH.
Qed.

(** Every combination is a subsequence of the pool, of the asked length. *)
Lemma combinations_sublist pool r c :
  c ∈ combinations pool r → c `sublist_of` pool ∧ length c = r.
Proof.
  revert r c. induction pool as [|x rest IH]; intros [|r] c; simpl.
  - intros ->%list_elem_of_singleton. split; [apply sublist_nil_l|done].
  - by intros ?%elem_of_nil.
  - intros ->%list_elem_of_singleton. split; [apply sublist_nil_l|done].
  - intros [(c' & -> & Hc')%list_elem_of_fmap|Hc]%elem_of_app.
    + apply IH in Hc' as [? <-]. split; [by apply sublist_skip|done].
    + apply IH in Hc as [? <-]. split; [by apply sublist_cons|done].
Qed.

(** Every subsequence of the pool is produced. *)
Lemma sublist_combinations pool c :
  c `sublist_of` pool → c ∈ combinations pool (length c).
Proof.
  induction 1 as [|x c rest Hc IH|x c rest Hc IH]; simpl.
  - by left.
  - apply elem_of_app. left. by apply list_elem_of_fmap_2.
  - destruct c as [|y c]; simpl in *.
    + destruct rest; by left.
    + apply elem_of_app. by right.
Qed.

(** Over a pool without repetition no combination comes twice. *)
Lemma combinations_NoDup pool r : NoDup pool → NoDup (combinations pool r).
Proof.
  intros Hpool. revert r.
  induction Hpool as [|x rest Hx Hrest IH]; intros [|r]; simpl.
  - apply NoDup_singleton.
  - constructor.
  - apply NoDup_singleton.
  - apply NoDup_app. split_and!.
    + apply (NoDup_fmap_2 _), IH.
    + intros c (c' & -> & _)%list_elem_of_fmap Hc.
      apply combinations_sublist in Hc as [Hc _].
      apply Hx. eapply elem_of_sublist; [|done]. by left.
    + apply IH.
Qed.

(** Two subsequences of a pool without repetition that have the same
    members are the same subsequence. *)
Lemma sublist_same_members pool c1 c2 :
  NoDup pool → c1 `sublist_of` pool → c2 `sublist_of` pool →
  c1 ≡ₚ c2 → c1 = c2.
Proof.
  intros Hpool. revert c1 c2.
  induction Hpool as [|x rest Hx Hrest IH]; intros c1 c2 H1 H2 Hp.
  { apply sublist_nil_r in H1, H2. by subst. }
  apply sublist_cons_r in H1 as [H1|(c1' & -> & H1)];
    apply sublist_cons_r in H2 as [H2|(c2' & -> & H2)].
  - by apply IH.
  - exfalso. apply Hx. apply (elem_of_sublist c1); [|done].
    rewrite Hp. by left.
  - exfalso. apply Hx. apply (elem_of_sublist c2); [|done].
    rewrite <-Hp. by left.
  - f_equal. apply IH; [done..|]. by apply (inj (cons x)).
Qed.

End combinations_facts.

(** The key of an element tuple determines the tuple's members, as long as
    the elements are symbols. *)
Lemma system_key_members (c1 c2 : list string) :
  Forall (λ e, is_symbol e = true) c1 → Forall (λ e, is_symbol e = true) c2 →
  join (sorted c1) = join (sorted c2) → c1 ≡ₚ c2.
Proof.
  intros H1 H2 Hkey.
  rewrite <-(sorted_Permutation c1), <-(sorted_Permutation c2).
  rewrite <-(findall_join (sorted c1)), <-(findall_join (sorted c2)).
  - by rewrite Hkey.
  - by rewrite sorted_Permutation.
  - by rewrite sorted_Permutation.
Qed.

(** Strings that are not symbols can run together into one key. *)
Example system_key_needs_symbols :
  join (sorted ["A"; "BC"]) = join (sorted ["AB"; "C"]).
Proof. vm_compute. reflexivity. Qed.

(** C5. For an allowed-element set of [n] element symbols and an arity [k],
    [assemble_list_of_systems] makes exactly C(n, k) rows; each row holds [k]
    distinct elements of the set and their key; no key comes twice. *)
Theorem assemble_list_of_systems_count (element_list : gset string) (order : nat) :
  (∀ e, e ∈ element_list → is_symbol e = true) →
  let out := assemble_list_of_systems element_list order in
  length out = choose (size element_list) order ∧
  (∀ row, row ∈ out →
          length (sys_elements row) = order ∧
          NoDup (sys_elements row) ∧
          (∀ e, e ∈ sys_elements row → e ∈ element_list) ∧
          sys_system row = join (sorted (sys_elements row))) ∧
  NoDup (sys_system <$> out).
Proof.
  intros Hsym out. unfold out, assemble_list_of_systems.
  pose proof (NoDup_elements element_list) as Hnd.
  assert (∀ c, c ∈ combinations (elements element_list) order →
               Forall (λ e, is_symbol e = true) c) as Hc.
  { intros c [Hc _]%combinations_sublist. apply Forall_forall. intros e He.
    apply Hsym, elem_of_elements. by eapply elem_of_sublist. }
  split_and!.
  - by rewrite length_fmap, length_combinations.
  - intros row (c & -> & Hin)%list_elem_of_fmap. simpl.
    pose proof Hin as [Hsub Hlen]%combinations_sublist.
    split_and!; [done|by eapply sublist_NoDup| |done].
    intros e He. apply elem_of_elements. by eapply elem_of_sublist.
  - rewrite <-list_fmap_compose.
    apply NoDup_fmap_2_strong; [|by apply combinations_NoDup].
    intros c1 c2 Hc1 Hc2 Hkey. simpl in Hkey.
    apply (sublist_same_members (elements element_list)); [done|..].
    + by apply combinations_sublist in Hc1 as [? _].
    + by apply combinations_sublist in Hc2 as [? _].
    + apply system_key_members; auto.
Qed.

Lemma assemble_list_of_systems_count_witness :
  let element_list : gset string := list_to_set ["Li"; "Na"; "K"; "O"; "Fe"] in
  (∀ e, e ∈ element_list → is_symbol e = true) ∧
  length (assemble_list_of_systems element_list 2) = choose (size element_list) 2.
Proof.
  intros element_list.
  assert (∀ e, e ∈ element_list → is_symbol e = true) as Hsym.
  { intros e He. apply elem_of_list_to_set in He.
    repeat (apply elem_of_cons in He as [->|He]); try done.
    by apply elem_of_nil in He. }
  split; [exact Hsym|].
  exact (proj1 (assemble_list_of_systems_count element_list 2 Hsym)).
Defined.

(** The scenario of five elements: ten binary systems, ["LiO"] and ["FeK"]
    among them. *)
Example assemble_five_elements :
  let out := assemble_list_of_systems (list_to_set ["Li"; "Na"; "K"; "O"; "Fe"]) 2 in
  length out = 10 ∧ "LiO" ∈ sys_system <$> out ∧ "FeK" ∈ sys_system <$> out.
Proof.
  split_and!; [by vm_compute|..];
    apply (bool_decide_unpack _); by vm_compute.
Qed.

(** The table sizes of the notebook, for its 63 elements. *)
Example choose_63 :
  N.of_nat (choose 63 2) = 1953%N ∧
  N.of_nat (choose 63 3) = 39711%N ∧
  N.of_nat (choose 63 4) = 595665%N.
Proof. split_and!; by vm_compute. Qed.

(** ** The filter and the collector *)

Section run_filter_facts.

Implicit Types (f : list string → bool) (systems : list SystemRow)
  (compounds : Table) (g : Globals) (i : Invocation).

Lemma possible_systems_empty f systems :
  (∀ row, row ∈ systems → f (sys_elements row) = false) →
  possible_systems f systems = ∅.
Proof.
  intros Hf. unfold possible_systems.
  replace (filter (λ row, f (sys_elements row) = true) systems) with
    (@nil SystemRow); [done|].
  symmetry. induction systems as [|row rest IH]; [done|].
  rewrite filter_cons, decide_False.
  - apply IH. intros ??. apply Hf. by right.
  - rewrite Hf; [done|by left].
Qed.

Lemma results_empty f systems compounds :
  (∀ r, r ∈ compounds → system r ∉ possible_systems f systems) →
  results f systems compounds = [].
Proof.
  intros Hr. unfold results. induction compounds as [|r rest IH]; [done|].
  rewrite filter_cons, decide_False by (apply Hr; by left).
  apply IH. intros ??. apply Hr. by right.
Qed.

(** The matches are rows of [compounds] in table order, and every one of
    them has a candidate system that passes [f]. *)
Lemma results_sublist f systems compounds :
  results f systems compounds `sublist_of` compounds.
Proof. apply sublist_filter. Qed.

Lemma elem_of_results f systems compounds r :
  r ∈ results f systems compounds ↔
  r ∈ compounds ∧
  ∃ row, row ∈ systems ∧ f (sys_elements row) = true ∧
         sys_system row = system r.
Proof.
  unfold results, possible_systems.
  rewrite list_elem_of_filter, elem_of_list_to_set, list_elem_of_fmap.
  setoid_rewrite list_elem_of_filter. naive_solver.
Qed.

(** The selection is the first two matches, whatever [ntop] is. *)
Lemma top_comps_head f systems compounds ntop :
  top_comps f systems compounds ntop =
    composition <$> take 2 (results f systems compounds).
Proof. done. Qed.

Lemma length_top_comps f systems compounds ntop :
  length (top_comps f systems compounds ntop) =
    2 `min` length (results f systems compounds).
Proof. unfold top_comps, head. by rewrite length_fmap, length_take. Qed.

Lemma invoke_tables g i :
  candidate_systems (invoke g i) = candidate_systems g ∧
  dl_best (invoke g i) = dl_best g.
Proof.
  unfold invoke, run_filter.
  destruct (candidate_systems g (inv_systems i)); [done|].
  by destruct (dl_best g (inv_compounds i)).
Qed.

(** A call that raises appends nothing, which is also what there is to
    select from a table without rows. *)
Lemma invoke_collector g i :
  list_of_interesting_compounds (invoke g i) =
    list_of_interesting_compounds g ++ selected g i.
Proof.
  unfold invoke, run_filter, selected.
  destruct (candidate_systems g (inv_systems i)) as [|row rows] eqn:Hs.
  { simpl. unfold top_comps. rewrite results_empty; [by rewrite app_nil_r|].
    intros r _. rewrite possible_systems_empty; [set_solver|].
    by intros ? ?%elem_of_nil. }
  destruct (dl_best g (inv_compounds i)) as [|r rs] eqn:Hc; [|done].
  simpl. by rewrite app_nil_r.
Qed.

Lemma selected_invoke g i j : selected (invoke g i) j = selected g j.
Proof.
  unfold selected. by destruct (invoke_tables g i) as [-> ->].
Qed.

Lemma run_filters_collector calls g :
  list_of_interesting_compounds (run_filters calls g) =
    list_of_interesting_compounds g ++ concat (selected g <$> calls).
Proof.
  unfold run_filters. revert g.
  induction calls as [|i calls IH]; intros g; simpl.
  { by rewrite app_nil_r. }
  rewrite IH, invoke_collector, <-app_assoc.
  by rewrite (list_fmap_ext (selected (invoke g i)) (selected g) calls)
    by (intros; apply selected_invoke).
Qed.

End run_filter_facts.

(** C1. [run_filter] does not select the first [ntop] matches: on three
    matching rows it selects two compositions for [ntop = 1] and for
    [ntop = 3] alike, where min(ntop, matches) is 1 and 3. *)
Theorem run_filter_ntop_not_read :
  length (results f_oxide demo_systems demo_best) = 3 ∧
  top_comps f_oxide demo_systems demo_best 1 = ["FeO"; "Al2O3"] ∧
  top_comps f_oxide demo_systems demo_best 3 = ["FeO"; "Al2O3"] ∧
  snd (run_filter f_oxide ternary ternary 3 demo_globals) =
    mkGlobals (λ _, demo_systems) (λ _, demo_best) ["FeO"; "Al2O3"].
Proof. split_and!; by vm_compute. Qed.

(** C7 as stated fails: a candidate table without rows has no system that
    passes the predicate, and a prediction table without rows has no row in
    the matched set, yet on either the call raises [KeyError] instead of
    returning an empty selection.  The enumerator makes such a candidate
    table when the arity is above the number of elements. *)
Lemma run_filter_raises_without_rows :
  let no_systems := assemble_list_of_systems (list_to_set ["Li"; "Na"; "K"]) 4 in
  let g1 := mkGlobals (λ _, no_systems) (λ _, demo_best) [] in
  let g2 := mkGlobals (λ _, demo_systems) (λ _, []) [] in
  (∀ row, row ∈ candidate_systems g1 quaternary →
          f_alkali (sys_elements row) = false) ∧
  run_filter f_alkali quaternary quaternary 2 g1 = (KeyError "system", g1) ∧
  (∀ r, r ∈ dl_best g2 ternary →
        system r ∉ possible_systems f_alkali (candidate_systems g2 ternary)) ∧
  run_filter f_alkali ternary ternary 2 g2 = (KeyError "composition", g2).
Proof.
  intros no_systems g1 g2.
  assert (no_systems = []) as Hno by (by vm_compute).
  split_and!.
  - intros row Hrow. simpl in Hrow. rewrite Hno in Hrow.
    by apply elem_of_nil in Hrow.
  - unfold run_filter. simpl. by rewrite Hno.
  - intros r Hr. simpl in Hr. by apply elem_of_nil in Hr.
  - done.
Qed.

(** C7, amended. On a candidate table and a prediction table that each have
    at least one row: when no candidate system passes the predicate, or no
    prediction row has its system among those that pass, [run_filter] does
    not raise; it reports zero matches and an empty selection and leaves
    the collector, like everything else, as it was. *)
Theorem run_filter_no_match
    (f : list string → bool) (systems compounds : arity) (ntop : nat) (g : Globals) :
  candidate_systems g systems ≠ [] → dl_best g compounds ≠ [] →
  (∀ row, row ∈ candidate_systems g systems → f (sys_elements row) = false) ∨
  (∀ r, r ∈ dl_best g compounds →
        system r ∉ possible_systems f (candidate_systems g systems)) →
  run_filter f systems compounds ntop g = (Printed (mkReport 0 []), g).
Proof.
  intros Hsys Hcomp Hnone.
  assert (results f (candidate_systems g systems) (dl_best g compounds) = [])
    as Hres.
  { apply results_empty. destruct Hnone as [Hf|Hr]; [|done].
    intros r _. rewrite (possible_systems_empty _ _ Hf). set_solver. }
  unfold run_filter, top_comps.
  destruct (candidate_systems g systems) as [|row rows] eqn:Hs; [done|].
  destruct (dl_best g compounds) as [|r rs] eqn:Hc; [done|].
  rewrite Hres. simpl. rewrite app_nil_r. by destruct g.
Qed.

Lemma run_filter_no_match_witness :
  candidate_systems demo_globals ternary ≠ [] ∧
  dl_best demo_globals ternary ≠ [] ∧
  (∀ row, row ∈ candidate_systems demo_globals ternary →
          f_chalcohalide (sys_elements row) = false) ∧
  run_filter f_chalcohalide ternary ternary 2 demo_globals =
    (Printed (mkReport 0 []), demo_globals).
Proof.
  assert (∀ row, row ∈ candidate_systems demo_globals ternary →
                 f_chalcohalide (sys_elements row) = false) as Hnone.
  { intros row Hrow. simpl in Hrow. unfold demo_systems in Hrow.
    repeat (apply elem_of_cons in Hrow as [->|Hrow]); try by vm_compute.
    by apply elem_of_nil in Hrow. }
  assert (candidate_systems demo_globals ternary ≠ []) as Hs by done.
  assert (dl_best demo_globals ternary ≠ []) as Hc by done.
  split_and!; [exact Hs|exact Hc|exact Hnone|].
  exact (run_filter_no_match f_chalcohalide ternary ternary 2 demo_globals
           Hs Hc (or_introl Hnone)).
Defined.

(** C8. The collector keeps the order of the calls and keeps repetitions:
    after a sequence of calls it is the old list followed by the selections
    of the calls, in call order; three calls that select two compositions
    each fill an empty collector with six entries, two per call in order. *)
Theorem collector_in_call_order (g : Globals) :
  (∀ calls,
     list_of_interesting_compounds (run_filters calls g) =
       list_of_interesting_compounds g ++ concat (selected g <$> calls)) ∧
  (∀ i1 i2 i3,
     list_of_interesting_compounds g = [] →
     length (selected g i1) = 2 → length (selected g i2) = 2 →
     length (selected g i3) = 2 →
     let out := list_of_interesting_compounds (run_filters [i1; i2; i3] g) in
     length out = 6 ∧ take 2 out = selected g i1 ∧
     take 2 (drop 2 out) = selected g i2 ∧ drop 4 out = selected g i3).
Proof.
  split; [intros calls; apply run_filters_collector|].
  intros i1 i2 i3 Hg H1 H2 H3 out. unfold out.
  rewrite run_filters_collector, Hg. simpl. rewrite app_nil_r.
  destruct (selected g i1) as [|a1 [|b1 [|??]]]; try done.
  destruct (selected g i2) as [|a2 [|b2 [|??]]]; try done.
  destruct (selected g i3) as [|a3 [|b3 [|??]]]; done.
Qed.

Lemma collector_in_call_order_witness :
  let i1 := mkInvocation f_oxide ternary ternary 2 in
  let i2 := mkInvocation f_alkali ternary ternary 2 in
  let out :=
    list_of_interesting_compounds (run_filters [i1; i2; i1] demo_globals) in
  list_of_interesting_compounds demo_globals = [] ∧
  length (selected demo_globals i1) = 2 ∧
  length (selected demo_globals i2) = 2 ∧
  out = ["FeO"; "Al2O3"; "Li2O"; "FeLi"; "FeO"; "Al2O3"] ∧
  length out = 6 ∧ take 2 out = selected demo_globals i1 ∧
  take 2 (drop 2 out) = selected demo_globals i2 ∧
  drop 4 out = selected demo_globals i1.
Proof.
  intros i1 i2 out.
  split_and!; [done|by vm_compute|by vm_compute|by vm_compute|..];
    apply (proj2 (collector_in_call_order demo_globals) i1 i2 i1);
    by vm_compute.
Defined.

(** C10. A call of [run_filter] leaves the candidate-system tables and the
    prediction tables as they were; the only object it changes is the
    collector, and that one only by appending: the old list is a prefix of
    the new one, so no entry is removed or replaced and the list never gets
    shorter. *)
Theorem run_filter_frame
    (f : list string → bool) (systems compounds : arity) (ntop : nat) (g : Globals) :
  let g' := snd (run_filter f systems compounds ntop g) in
  let old := list_of_interesting_compounds g in
  let new := list_of_interesting_compounds g' in
  candidate_systems g' = candidate_systems g ∧
  dl_best g' = dl_best g ∧
  old `prefix_of` new ∧
  (length old ≤ length new)%nat.
Proof.
  intros g' old new. unfold new, old, g'.
  set (i := mkInvocation f systems compounds ntop).
  change (snd (run_filter f systems compounds ntop g)) with (invoke g i).
  destruct (invoke_tables g i) as [Hs Hb]. rewrite invoke_collector.
  split_and!; [done|done| |].
  - by apply prefix_app_r.
  - rewrite length_app. lia.
Qed.

(** ** Element predicates *)

Section predicate_facts.

Implicit Types (m : string → bool) (e : string) (before after els : list string).

(** A membership test answers [false] for a symbol that its reference
    collection does not hold. *)
Lemma in_list_unrecognized (xs : list string) e : e ∉ xs → in_list xs e = false.
Proof. intros. unfold in_list. by apply bool_decide_eq_false. Qed.

Lemma in_set_unrecognized (xs : gset string) e : e ∉ xs → in_set xs e = false.
Proof. intros. unfold in_set. by apply bool_decide_eq_false. Qed.

(** What a [false] entry does to [any], [all] and [sum]. *)
Lemma any_false_entry m e before after :
  m e = false →
  any (m <$> before ++ e :: after) = any (m <$> before ++ after).
Proof.
  intros He. unfold any.
  rewrite !fmap_app, fmap_cons, !existsb_app. simpl. by rewrite He.
Qed.

Lemma all_false_entry m e before after :
  m e = false → all (m <$> before ++ e :: after) = false.
Proof.
  intros He. unfold all.
  rewrite fmap_app, fmap_cons, forallb_app. simpl. rewrite He. simpl.
  apply andb_false_r.
Qed.

Lemma sum_false_entry m e before after :
  m e = false →
  sum (m <$> before ++ e :: after) = sum (m <$> before ++ after).
Proof.
  intros He. unfold sum.
  rewrite !fmap_app, fmap_cons, !filter_app, filter_cons, He.
  by rewrite decide_False.
Qed.

(** An element without an entry in the supply-risk table is not among the
    low-risk metals. *)
Lemma metals_no_highHHI_unlisted get_hhi_production (metals : gset string) e :
  get_hhi_production e = None → e ∉ metals_no_highHHI get_hhi_production metals.
Proof.
  intros He. unfold metals_no_highHHI. rewrite elem_of_filter, He. simpl.
  naive_solver.
Qed.

End predicate_facts.

(** C9. A symbol that a predicate's reference collection does not hold counts
    as "no match" and raises nothing: its membership test is [false], so it
    adds nothing to an [any] or a [sum] and makes an [all] false.  This is
    so for the alkali list, the halogen list, the chalcogen list, the metal
    set, and, for a symbol missing from the supply-risk table, the low-risk
    metal set. *)
Theorem unrecognized_symbol_no_match
    (get_hhi_production : string → option Z) (metals : gset string)
    (e : string) (before after : list string) :
  let els := before ++ e :: after in
  let others := before ++ after in
  (e ∉ alkali_metals →
   in_list alkali_metals e = false ∧ f_alkali els = f_alkali others) ∧
  (e ∉ alkali_metals → e ∉ halogens →
   f_alkali_no_halogen els = f_alkali_no_halogen others) ∧
  (e ∉ chalcogens → e ∉ halogens →
   f_chalcohalide els = f_chalcohalide others) ∧
  (e ∉ metals →
   in_set metals e = false ∧ f_intermetallic metals els = false ∧
   sum (in_set metals <$> els) = sum (in_set metals <$> others)) ∧
  (get_hhi_production e = None →
   in_set (metals_no_highHHI get_hhi_production metals) e = false ∧
   f_intermetallic_low_hhi (metals_no_highHHI get_hhi_production metals) els = false).
Proof.
  intros els others. unfold els, others. split_and!.
  - intros He%in_list_unrecognized. split; [done|]. by apply any_false_entry.
  - intros Ha%in_list_unrecognized Hh%in_list_unrecognized.
    unfold f_alkali_no_halogen.
    by rewrite (any_false_entry _ _ _ _ Ha), (any_false_entry _ _ _ _ Hh).
  - intros Hc%in_list_unrecognized Hh%in_list_unrecognized.
    unfold f_chalcohalide.
    by rewrite (any_false_entry _ _ _ _ Hc), (any_false_entry _ _ _ _ Hh).
  - intros He%in_set_unrecognized. split_and!; [done| |].
    + by apply all_false_entry.
    + by apply sum_false_entry.
  - intros He%(metals_no_highHHI_unlisted _ metals)%in_set_unrecognized.
    split; [done|]. by apply all_false_entry.
Qed.

Lemma unrecognized_symbol_no_match_witness :
  ("Cs" ∉ alkali_metals) ∧ ("Cs" ∉ halogens) ∧
  f_alkali ["O"; "Cs"; "Fe"] = f_alkali ["O"; "Fe"] ∧
  f_alkali_no_halogen ["O"; "Cs"; "Fe"] = f_alkali_no_halogen ["O"; "Fe"] ∧
  f_intermetallic_low_hhi
    (metals_no_highHHI (λ _, None) {["Cs"; "Fe"]}) ["O"; "Cs"; "Fe"] = false.
Proof.
  assert ("Cs" ∉ alkali_metals) as Ha by (apply (bool_decide_unpack _); by vm_compute).
  assert ("Cs" ∉ halogens) as Hh by (apply (bool_decide_unpack _); by vm_compute).
  pose proof (unrecognized_symbol_no_match (λ _, None) {["Cs"; "Fe"]}
                "Cs" ["O"] ["Fe"]) as (H1 & H2 & _ & _ & H5).
  split_and!; [done|done| | |].
  - exact (proj2 (H1 Ha)).
  - exact (H2 Ha Hh).
  - exact (proj2 (H5 eq_refl)).
Defined.

Example f_alkali_examples :
  f_alkali ["K"; "O"; "Os"] = true ∧ f_alkali ["Fe"; "O"; "Xx"] = false ∧
  f_alkali_no_halogen ["K"; "Sc"; "Br"] = false ∧
  f_metal_oxide {["Ag"; "Ru"]} ["Ag"; "O"; "Ru"] = true ∧
  f_intermetallic_3d {["Ti"; "In"; "Ni"]} ["In"; "Ni"; "Ti"] = true.
Proof. split_and!; by vm_compute. Qed.

(** * Further properties of the pipeline *)

(** ** The system key, continued *)

Section key_round_trip.

Implicit Types (s : string) (xs ys c : list string).

Lemma sorted_Permutation_eq xs ys : xs ≡ₚ ys → sorted xs = sorted ys.
Proof.
  intros Hp. apply (Sorted_unique String.le); try apply sorted_Sorted.
  by rewrite !sorted_Permutation.
Qed.

Lemma sorted_id xs : Sorted String.le xs → sorted xs = xs.
Proof.
  intros Hs. apply (Sorted_unique String.le); [apply sorted_Sorted|done|].
  apply sorted_Permutation.
Qed.

Lemma symbols_of_set s :
  Forall (λ e, is_symbol e = true)
         (sorted (elements (list_to_set (elem_re_findall s) : gset string))).
Proof.
  rewrite sorted_Permutation. apply Forall_forall. intros e He.
  apply elem_of_elements, elem_of_list_to_set in He.
  revert e He. apply Forall_forall, findall_symbols.
Qed.

(** The pattern reads a key back into the symbols it was made of. *)
Lemma findall_get_elems s :
  elem_re_findall (get_elems s) =
    sorted (elements (list_to_set (elem_re_findall s) : gset string)).
Proof. unfold get_elems. apply findall_join, symbols_of_set. Qed.

Lemma get_elems_members s t :
  t ∈ elem_re_findall (get_elems s) ↔ t ∈ elem_re_findall s.
Proof.
  rewrite findall_get_elems, sorted_Permutation, elem_of_elements.
  apply elem_of_list_to_set.
Qed.

(** Equal keys come from equal symbol sets only. *)
Lemma get_elems_inj s1 s2 :
  get_elems s1 = get_elems s2 ↔
  ∀ t, t ∈ elem_re_findall s1 ↔ t ∈ elem_re_findall s2.
Proof.
  split.
  - intros Heq t. by rewrite <-(get_elems_members s1), Heq, get_elems_members.
  - intros Hsame. unfold get_elems. do 3 f_equal.
    apply set_eq. intros t. by rewrite !elem_of_list_to_set.
Qed.

(** The key of a tuple of distinct symbols, as [assemble_list_of_systems]
    writes it, is the key [get_elems] gives to exactly the strings with
    these symbols. *)
Lemma get_elems_eq_key s c :
  Forall (λ e, is_symbol e = true) c → NoDup c →
  get_elems s = join (sorted c) ↔ ∀ t, t ∈ elem_re_findall s ↔ t ∈ c.
Proof.
  intros Hsym Hnd.
  assert (Forall (λ e, is_symbol e = true) (sorted c)) as Hsc
    by (by rewrite sorted_Permutation).
  split.
  - intros Heq t. rewrite <-get_elems_members, Heq, (findall_join _ Hsc).
    by rewrite sorted_Permutation.
  - intros Hsame. unfold get_elems. f_equal. apply sorted_Permutation_eq.
    apply NoDup_Permutation; [apply NoDup_elements|done|].
    intros t. by rewrite elem_of_elements, elem_of_list_to_set.
Qed.

End key_round_trip.

(** X1. Reading the key of a string back with the pattern gives the distinct
    symbols of the string, each once, in ascending order. *)
Theorem get_elems_decodes (s : string) :
  let key := elem_re_findall (get_elems s) in
  Sorted String.le key ∧ NoDup key ∧
  (∀ t, t ∈ key ↔ t ∈ elem_re_findall s) ∧
  join key = get_elems s.
Proof.
  simpl. rewrite findall_get_elems. split_and!.
  - apply sorted_Sorted.
  - rewrite sorted_Permutation. apply NoDup_elements.
  - intros t. rewrite <-findall_get_elems. apply get_elems_members.
  - done.
Qed.

(** X2. A key is its own key: [get_elems (get_elems s) = get_elems s]. *)
Theorem get_elems_idempotent (s : string) :
  get_elems (get_elems s) = get_elems s.
Proof. apply get_elems_inj. intros t. apply get_elems_members. Qed.

(** X3. Two strings have the same key exactly when they hold the same set of
    symbols; the key of a string equals the key written for a tuple of
    distinct symbols exactly when the string's symbols are those of the
    tuple. *)
Theorem get_elems_joins_on_symbol_sets (s1 s2 : string) (c : list string) :
  Forall (λ e, is_symbol e = true) c → NoDup c →
  (get_elems s1 = get_elems s2 ↔
   ∀ t, t ∈ elem_re_findall s1 ↔ t ∈ elem_re_findall s2) ∧
  (get_elems s1 = join (sorted c) ↔ ∀ t, t ∈ elem_re_findall s1 ↔ t ∈ c).
Proof.
  intros Hsym Hnd. split; [apply get_elems_inj|by apply get_elems_eq_key].
Qed.

Lemma get_elems_joins_on_symbol_sets_witness :
  Forall (λ e, is_symbol e = true) ["Fe"; "Al"] ∧ NoDup ["Fe"; "Al"] ∧
  (get_elems "AlFeFe2" = join (sorted ["Fe"; "Al"]) ↔
   ∀ t, t ∈ elem_re_findall "AlFeFe2" ↔ t ∈ ["Fe"; "Al"]).
Proof.
  assert (Forall (λ e, is_symbol e = true) ["Fe"; "Al"]) as Hsym
    by (by repeat constructor).
  assert (NoDup ["Fe"; "Al"]) as Hnd by (apply (bool_decide_unpack _); by vm_compute).
  split_and!; [done..|].
  exact (proj2 (get_elems_joins_on_symbol_sets "AlFeFe2" "FeAlFe" _ Hsym Hnd)).
Defined.

(** X4. A string gets the empty key exactly when the pattern finds no symbol
    in it. *)
Theorem get_elems_empty_key (s : string) :
  get_elems s = EmptyString ↔ elem_re_findall s = [].
Proof.
  split.
  - intros Heq. apply elem_of_nil_inv. intros t Ht.
    apply get_elems_members in Ht. rewrite Heq in Ht. by apply elem_of_nil in Ht.
  - intros Heq. unfold get_elems. rewrite Heq. by vm_compute.
Qed.

(** ** Deduplication, continued *)

Section deduplication_more.

Implicit Types (data : Table) (r x b : Row).

Lemma get_most_stable_systems sort_values data :
  sorts_ascending sort_values →
  (list_to_set (system <$> get_most_stable sort_values data) : gset string) =
    list_to_set (system <$> data).
Proof.
  intros Hsort. apply set_eq. intros k.
  rewrite !elem_of_list_to_set, !list_elem_of_fmap. split.
  - intros (b & -> & Hb). exists b. split; [done|].
    by eapply get_most_stable_subseteq.
  - intros (x & -> & Hx). apply (sort_values_elem_of _ Hsort) in Hx.
    apply (drop_duplicates_from_covers ∅) in Hx as (b & ? & ?); [|set_solver].
    by exists b.
Qed.

Lemma drop_duplicates_from_sublist (seen : gset string) data :
  drop_duplicates_from seen data `sublist_of` data.
Proof.
  revert seen. induction data as [|y rest IH]; intros seen; simpl; [done|].
  case_decide; [by apply sublist_cons|by apply sublist_skip].
Qed.

Lemma assign_system_elem_of data b :
  b ∈ assign_system data ↔
  ∃ r, r ∈ data ∧ index b = index r ∧ composition b = composition r ∧
       delta_e b = delta_e r ∧ stability_predicted b = stability_predicted r ∧
       system b = get_elems (composition r).
Proof.
  unfold assign_system. rewrite list_elem_of_fmap. split.
  - intros (r & -> & Hr). by exists r.
  - intros (r & Hr & ? & ? & ? & ? & ?). exists r. split; [|done].
    destruct b; simpl in *; by subst.
Qed.

End deduplication_more.

(** X5. [get_most_stable] returns one row for each distinct system of the
    table: the number of rows is the number of distinct systems (none for an
    empty table), the rows are in ascending order of predicted instability,
    and they stand in the order the sort gave them. *)
Theorem get_most_stable_one_per_system
    (sort_values : Table → Table) (data : Table) :
  sorts_ascending sort_values →
  let best := get_most_stable sort_values data in
  length best = size (list_to_set (system <$> data) : gset string) ∧
  (length best ≤ length data)%nat ∧
  (data = [] → best = []) ∧
  StronglySorted row_le best ∧
  best `sublist_of` sort_values data.
Proof.
  intros Hsort best.
  assert (length best ≤ length data)%nat as Hlen.
  { rewrite <-(Permutation_length (proj1 (Hsort data))).
    apply sublist_length, drop_duplicates_from_sublist. }
  split_and!; [|done| | |].
  - rewrite <-(get_most_stable_systems sort_values data Hsort).
    rewrite size_list_to_set by apply get_most_stable_NoDup.
    by rewrite length_fmap.
  - intros ->. simpl in Hlen. by destruct best; [|simpl in Hlen; lia].
  - by apply get_most_stable_StronglySorted.
  - apply drop_duplicates_from_sublist.
Qed.

Lemma get_most_stable_one_per_system_witness :
  sorts_ascending stable_sort_values ∧
  length (get_most_stable stable_sort_values demo_predictions) =
    size (list_to_set (system <$> demo_predictions) : gset string).
Proof.
  split; [exact stable_sort_values_sorts|].
  exact (proj1 (get_most_stable_one_per_system stable_sort_values
                  demo_predictions stable_sort_values_sorts)).
Defined.

(** X6. When no two rows of the table have the same predicted instability,
    the result of [get_most_stable] does not depend on the sorting
    algorithm: every two ascending sorts give the same table. *)
Theorem get_most_stable_without_ties
    (sort1 sort2 : Table → Table) (data : Table) :
  sorts_ascending sort1 → sorts_ascending sort2 →
  (∀ x y, x ∈ data → y ∈ data →
          stability_predicted x = stability_predicted y → x = y) →
  get_most_stable sort1 data = get_most_stable sort2 data.
Proof.
  intros H1 H2 Hties. unfold get_most_stable. f_equal.
  apply (StronglySorted_unique_strong row_le).
  - intros x y Hx Hy Hxy Hyx.
    apply (proj1 (sort_values_elem_of _ H1 _ _)) in Hx.
    apply (proj1 (sort_values_elem_of _ H2 _ _)) in Hy.
    apply (Hties x y Hx Hy). apply (anti_symm ascending); [exact Hxy|exact Hyx].
  - by apply sort_values_StronglySorted.
  - by apply sort_values_StronglySorted.
  - by rewrite (proj1 (H1 data)), (proj1 (H2 data)).
Qed.

Lemma get_most_stable_without_ties_witness :
  let data := [ mkRow 0 "Fe2O3" (Some (-150)%Z) (Some 30%Z) "FeO";
                mkRow 1 "FeO" (Some (-120)%Z) (Some 10%Z) "FeO";
                mkRow 4 "AlO" (Some (-90)%Z) None "AlO" ] in
  get_most_stable stable_sort_values data =
    get_most_stable reversing_sort_values data.
Proof.
  intros data.
  apply (get_most_stable_without_ties stable_sort_values reversing_sort_values
           data stable_sort_values_sorts reversing_sort_values_sorts).
  intros x y Hx Hy. unfold data in *.
  repeat (apply elem_of_cons in Hx as [->|Hx]); try by apply elem_of_nil in Hx.
  all: repeat (apply elem_of_cons in Hy as [->|Hy]); try by apply elem_of_nil in Hy.
  all: simpl; first [done | discriminate].
Defined.

(** X7. Tagging and deduplicating together: after
    [data['system'] = data['composition'].apply(get_elems)] and
    [get_most_stable], every row of the input has a kept row whose
    composition holds the same set of symbols and whose predicted
    instability is not higher, and no two kept rows hold the same set of
    symbols. *)
Theorem get_most_stable_per_symbol_set
    (sort_values : Table → Table) (data : Table) :
  sorts_ascending sort_values →
  let best := get_most_stable sort_values (assign_system data) in
  (∀ r, r ∈ data →
        ∃ b, b ∈ best ∧
             (∀ t, t ∈ elem_re_findall (composition b) ↔
                   t ∈ elem_re_findall (composition r)) ∧
             ¬ float_lt (stability_predicted r) (stability_predicted b)) ∧
  (∀ b1 b2, b1 ∈ best → b2 ∈ best →
            (∀ t, t ∈ elem_re_findall (composition b1) ↔
                  t ∈ elem_re_findall (composition b2)) →
            b1 = b2).
Proof.
  intros Hsort best.
  assert (∀ b, b ∈ best → system b = get_elems (composition b)) as Hkey.
  { intros b Hb%(get_most_stable_subseteq _ Hsort).
    apply assign_system_elem_of in Hb as (r & _ & _ & -> & _ & _ & ->). done. }
  split.
  - intros r Hr.
    set (r' := mkRow (index r) (composition r) (delta_e r)
                     (stability_predicted r) (get_elems (composition r))).
    assert (r' ∈ assign_system data) as Hr'
      by (apply assign_system_elem_of; by exists r).
    pose proof (proj2 (sort_values_elem_of _ Hsort _ _) Hr') as Hs.
    apply (drop_duplicates_from_covers ∅) in Hs as (b & Hb & Hsys); [|set_solver].
    exists b. split_and!; [done| |].
    + apply get_elems_inj. by rewrite <-(Hkey b Hb), Hsys.
    + apply ascending_not_lt.
      by apply (get_most_stable_least _ Hsort (assign_system data) b r').
  - intros b1 b2 Hb1 Hb2 Hsame.
    apply (NoDup_system_eq best); [by apply get_most_stable_NoDup|done..|].
    rewrite (Hkey b1 Hb1), (Hkey b2 Hb2). by apply get_elems_inj.
Qed.

Lemma get_most_stable_per_symbol_set_witness :
  sorts_ascending stable_sort_values ∧
  get_most_stable stable_sort_values (assign_system demo_predictions) =
    [ mkRow 1 "FeO" (Some (-120)%Z) (Some 10%Z) "FeO";
      mkRow 2 "Al2O3" (Some (-300)%Z) (Some 10%Z) "AlO" ] ∧
  (∀ r, r ∈ demo_predictions →
        ∃ b, b ∈ get_most_stable stable_sort_values (assign_system demo_predictions) ∧
             (∀ t, t ∈ elem_re_findall (composition b) ↔
                   t ∈ elem_re_findall (composition r)) ∧
             ¬ float_lt (stability_predicted r) (stability_predicted b)).
Proof.
  split; [exact stable_sort_values_sorts|]. split; [by vm_compute|].
  exact (proj1 (get_most_stable_per_symbol_set stable_sort_values
                  demo_predictions stable_sort_values_sorts)).
Defined.

(** ** The allowed elements and the enumeration, continued *)

Section enumeration_more.

Implicit Types (pool c : list string) (order : nat) (e : string).

Lemma elem_of_collect_from (acc : gset string) (compositions : list string) e :
  e ∈ foldl (λ acc x, acc ∪ list_to_set (elem_re_findall x)) acc compositions ↔
  e ∈ acc ∨ ∃ x, x ∈ compositions ∧ e ∈ elem_re_findall x.
Proof.
  revert acc. induction compositions as [|y rest IH]; intros acc; simpl.
  { split; [by left|]. intros [?|(x & ?%elem_of_nil & _)]; done. }
  rewrite IH, elem_of_union, elem_of_list_to_set. split.
  - intros [[?|?]|(x & ? & ?)]; [by left|right; exists y|right; exists x].
    + split; [by left|done].
    + split; [by right|done].
  - intros [?|(x & [->|?]%elem_of_cons & ?)]; [by left; left|by left; right|].
    right. by exists x.
Qed.

Lemma elem_of_collect_elements (compositions : list string) e :
  e ∈ collect_elements compositions ↔
  ∃ x, x ∈ compositions ∧ e ∈ elem_re_findall x.
Proof.
  unfold collect_elements. rewrite elem_of_collect_from. set_solver.
Qed.

Lemma elem_of_allowed_elements (lanthanides : gset string) compositions e :
  e ∈ allowed_elements lanthanides compositions ↔
  (∃ x, x ∈ compositions ∧ e ∈ elem_re_findall x) ∧
  (e ∉ noble_gases) ∧ (e ∉ actinides) ∧ (e ∉ lanthanides).
Proof.
  unfold allowed_elements, difference_update.
  rewrite !elem_of_difference, !elem_of_list_to_set, elem_of_collect_elements.
  tauto.
Qed.

Lemma allowed_elements_symbols (lanthanides : gset string) compositions e :
  e ∈ allowed_elements lanthanides compositions → is_symbol e = true.
Proof.
  intros [(x & _ & He) _]%elem_of_allowed_elements.
  revert e He. apply Forall_forall, findall_symbols.
Qed.

Lemma combinations_symbols pool order c :
  Forall (λ e, is_symbol e = true) pool → c ∈ combinations pool order →
  Forall (λ e, is_symbol e = true) c.
Proof.
  intros Hpool [Hc _]%combinations_sublist.
  rewrite Forall_forall in Hpool. apply Forall_forall. intros e He.
  apply Hpool. by eapply elem_of_sublist.
Qed.

(** Over a pool of distinct symbols no key is written twice. *)
Lemma systems_of_pool_keys_NoDup pool order :
  NoDup pool → Forall (λ e, is_symbol e = true) pool →
  NoDup (sys_system <$> systems_of_pool pool order).
Proof.
  intros Hnd Hsym. unfold systems_of_pool. rewrite <-list_fmap_compose.
  apply NoDup_fmap_2_strong; [|by apply combinations_NoDup].
  intros c1 c2 Hc1 Hc2 Hkey. simpl in Hkey.
  apply (sublist_same_members pool); [done|..].
  - by apply combinations_sublist in Hc1 as [? _].
  - by apply combinations_sublist in Hc2 as [? _].
  - apply system_key_members; eauto using combinations_symbols.
Qed.

(** Any choice of distinct members of the pool is among the combinations,
    up to the order of its members. *)
Lemma combinations_complete pool c :
  NoDup pool → NoDup c → (∀ e, e ∈ c → e ∈ pool) →
  ∃ c', c' ∈ combinations pool (length c) ∧ c' ≡ₚ c.
Proof.
  intros Hpool Hc Hsub. exists (filter (λ e, e ∈ c) pool).
  assert (filter (λ e, e ∈ c) pool ≡ₚ c) as Hp.
  { apply NoDup_Permutation; [by apply NoDup_filter|done|].
    intros e. rewrite list_elem_of_filter. naive_solver. }
  split; [|done]. rewrite <-(Permutation_length Hp).
  apply sublist_combinations, sublist_filter.
Qed.

(** The combinations of two iteration orders of one set agree up to the
    order inside each tuple. *)
Lemma combinations_Permutation pool1 pool2 order c :
  NoDup pool1 → pool1 ≡ₚ pool2 → c ∈ combinations pool1 order →
  ∃ c', c' ∈ combinations pool2 order ∧ c' ≡ₚ c.
Proof.
  intros Hnd Hp Hc. pose proof Hc as [Hsub <-]%combinations_sublist.
  apply combinations_complete.
  - by rewrite <-Hp.
  - by eapply sublist_NoDup.
  - intros e He. rewrite <-Hp. by eapply elem_of_sublist.
Qed.

Lemma possible_systems_Permutation (f : list string → bool) pool1 pool2 order :
  NoDup pool1 → pool1 ≡ₚ pool2 → (∀ a b, a ≡ₚ b → f a = f b) →
  possible_systems f (systems_of_pool pool1 order) ⊆
    possible_systems f (systems_of_pool pool2 order).
Proof.
  intros Hnd Hp Hf k. unfold possible_systems, systems_of_pool.
  rewrite !elem_of_list_to_set, !list_elem_of_fmap.
  intros (row & -> & Hrow). apply list_elem_of_filter in Hrow as [Hfr Hrow].
  apply list_elem_of_fmap in Hrow as (c & -> & Hc). simpl in *.
  destruct (combinations_Permutation pool1 pool2 order c) as (c' & Hc' & Hcc);
    [done..|].
  exists (mkSystemRow c' (join (sorted c'))). simpl. split.
  - f_equal. by apply sorted_Permutation_eq.
  - apply list_elem_of_filter. simpl. split; [by rewrite (Hf c' c)|].
    apply list_elem_of_fmap. by exists c'.
Qed.

End enumeration_more.

(** X8. The allowed elements are the symbols found in some composition of
    the table, without the noble gases, the actinides and the lanthanides;
    every one of them is a match of the pattern. *)
Theorem allowed_elements_spec
    (lanthanides : gset string) (compositions : list string) (e : string) :
  (e ∈ allowed_elements lanthanides compositions ↔
   (∃ x, x ∈ compositions ∧ e ∈ elem_re_findall x) ∧
   (e ∉ noble_gases) ∧ (e ∉ actinides) ∧ (e ∉ lanthanides)) ∧
  (e ∈ allowed_elements lanthanides compositions → is_symbol e = true).
Proof.
  split; [apply elem_of_allowed_elements|apply allowed_elements_symbols].
Qed.

Lemma allowed_elements_spec_witness :
  "Fe" ∈ allowed_elements {["La"; "Ce"]} ["LaFeO3"; "ArFe"; "UO2"] ∧
  is_symbol "Fe" = true ∧
  elements (allowed_elements {["La"; "Ce"]} ["LaFeO3"; "ArFe"; "UO2"]) ≡ₚ
    ["Fe"; "O"].
Proof.
  assert ("Fe" ∈ allowed_elements {["La"; "Ce"]} ["LaFeO3"; "ArFe"; "UO2"])
    as Hin by (apply (bool_decide_unpack _); by vm_compute).
  split; [exact Hin|]. split.
  - exact (proj2 (allowed_elements_spec {["La"; "Ce"]}
                    ["LaFeO3"; "ArFe"; "UO2"] "Fe") Hin).
  - apply (bool_decide_unpack _). by vm_compute.
Defined.

(** X9. The candidate systems made from the allowed elements need no further
    assumption: no key is written twice, every key is the key [get_elems]
    gives to itself, and a string gets the key of a row exactly when its
    symbols are the elements of that row. *)
Theorem systems_of_allowed_elements
    (lanthanides : gset string) (compositions : list string) (order : nat) :
  let out :=
    assemble_list_of_systems (allowed_elements lanthanides compositions) order in
  NoDup (sys_system <$> out) ∧
  (∀ row, row ∈ out →
          get_elems (sys_system row) = sys_system row ∧
          ∀ s, get_elems s = sys_system row ↔
               ∀ t, t ∈ elem_re_findall s ↔ t ∈ sys_elements row).
Proof.
  intros out. unfold out.
  set (X := allowed_elements lanthanides compositions).
  assert (Forall (λ e, is_symbol e = true) (elements X)) as Hsym.
  { apply Forall_forall. intros e He%elem_of_elements.
    by eapply allowed_elements_symbols. }
  split.
  - apply (systems_of_pool_keys_NoDup (elements X));
      [apply NoDup_elements|done].
  - intros row (c & -> & Hc)%list_elem_of_fmap. simpl.
    pose proof (combinations_symbols _ _ _ Hsym Hc) as Hcs.
    assert (NoDup c) as Hnd.
    { apply combinations_sublist in Hc as [Hc _].
      exact (sublist_NoDup _ _ (NoDup_elements X) Hc). }
    split; [|intros s; by apply get_elems_eq_key].
    apply get_elems_eq_key; [done..|]. intros t.
    rewrite findall_join by (by rewrite sorted_Permutation).
    by rewrite sorted_Permutation.
Qed.

(** X10. The enumeration is complete: every choice of distinct elements of
    the set has a row, which holds these elements in some order and carries
    the key of the choice. *)
Theorem assemble_list_of_systems_complete
    (element_list : gset string) (choice : list string) :
  NoDup choice → (∀ e, e ∈ choice → e ∈ element_list) →
  ∃ row, row ∈ assemble_list_of_systems element_list (length choice) ∧
         sys_elements row ≡ₚ choice ∧
         sys_system row = join (sorted choice).
Proof.
  intros Hnd Hsub.
  destruct (combinations_complete (elements element_list) choice)
    as (c & Hc & Hp); [apply NoDup_elements|done| |].
  { intros e He. by apply elem_of_elements, Hsub. }
  exists (mkSystemRow c (join (sorted c))). simpl. split_and!; [|done|].
  - unfold assemble_list_of_systems. apply list_elem_of_fmap. by exists c.
  - f_equal. by apply sorted_Permutation_eq.
Qed.

Lemma assemble_list_of_systems_complete_witness :
  let element_list : gset string := list_to_set ["Li"; "Na"; "K"; "O"; "Fe"] in
  NoDup ["O"; "Li"] ∧
  ∃ row, row ∈ assemble_list_of_systems element_list 2 ∧
         sys_elements row ≡ₚ ["O"; "Li"] ∧ sys_system row = "LiO".
Proof.
  intros element_list.
  assert (NoDup ["O"; "Li"]) as Hnd by (apply (bool_decide_unpack _); by vm_compute).
  split; [exact Hnd|].
  apply (assemble_list_of_systems_complete element_list ["O"; "Li"] Hnd).
  intros e He. apply elem_of_list_to_set.
  repeat (apply elem_of_cons in He as [->|He]);
    [apply (bool_decide_unpack _); by vm_compute..|by apply elem_of_nil in He].
Defined.

(** X11. The ends of the range of arities: arity 0 gives the one row of the
    empty tuple with the empty key, an arity above the number of elements
    gives no row, and the arity equal to the number of elements gives one
    row. *)
Theorem assemble_list_of_systems_edges (element_list : gset string) (order : nat) :
  assemble_list_of_systems element_list 0 = [mkSystemRow [] EmptyString] ∧
  ((size element_list < order)%nat →
   assemble_list_of_systems element_list order = []) ∧
  (order = size element_list →
   length (assemble_list_of_systems element_list order) = 1).
Proof.
  unfold assemble_list_of_systems, size, set_size. simpl. split_and!.
  - by destruct (elements element_list).
  - intros Hlt. apply length_zero_iff_nil.
    rewrite length_fmap, length_combinations. by apply choose_gt.
  - intros ->. rewrite length_fmap, length_combinations. apply choose_diag.
Qed.

Lemma assemble_list_of_systems_edges_witness :
  let element_list : gset string := list_to_set ["Li"; "Na"; "K"] in
  (size element_list < 4)%nat ∧ assemble_list_of_systems element_list 4 = [] ∧
  length (assemble_list_of_systems element_list 3) = 1.
Proof.
  intros element_list.
  assert (size element_list < 4)%nat as Hlt by (by vm_compute).
  split; [exact Hlt|]. split.
  - exact (proj1 (proj2 (assemble_list_of_systems_edges element_list 4)) Hlt).
  - apply (proj2 (proj2 (assemble_list_of_systems_edges element_list 3))).
    by vm_compute.
Defined.

(** X12. The matches of a filter do not depend on the order in which the set
    of elements is iterated: for a predicate that does not look at the order
    inside a tuple, the systems made from any listing of the set pass the
    same keys, and [run_filter] finds the same rows. *)
Theorem results_any_iteration_order
    (f : list string → bool) (element_list : gset string) (pool : list string)
    (order : nat) (compounds : Table) :
  NoDup pool → (∀ e, e ∈ pool ↔ e ∈ element_list) →
  (∀ a b, a ≡ₚ b → f a = f b) →
  possible_systems f (systems_of_pool pool order) =
    possible_systems f (assemble_list_of_systems element_list order) ∧
  results f (systems_of_pool pool order) compounds =
    results f (assemble_list_of_systems element_list order) compounds.
Proof.
  intros Hnd Hpool Hf.
  assert (pool ≡ₚ elements element_list) as Hp.
  { apply NoDup_Permutation; [done|apply NoDup_elements|].
    intros e. by rewrite elem_of_elements. }
  assert (possible_systems f (systems_of_pool pool order) =
          possible_systems f (assemble_list_of_systems element_list order)) as Heq.
  { apply set_eq. intros k. split.
    - by apply (possible_systems_Permutation f pool (elements element_list)).
    - apply (possible_systems_Permutation f (elements element_list) pool);
        [apply NoDup_elements|done..]. }
  split; [done|]. unfold results. by rewrite Heq.
Qed.

Lemma results_any_iteration_order_witness :
  let element_list : gset string := list_to_set ["Li"; "O"; "Fe"; "Al"] in
  NoDup ["Al"; "Fe"; "Li"; "O"] ∧
  results (λ _, true) (systems_of_pool ["Al"; "Fe"; "Li"; "O"] 2) demo_best =
    results (λ _, true) (assemble_list_of_systems element_list 2) demo_best.
Proof.
  intros element_list.
  assert (NoDup ["Al"; "Fe"; "Li"; "O"]) as Hnd
    by (apply (bool_decide_unpack _); by vm_compute).
  split; [exact Hnd|].
  apply (results_any_iteration_order (λ _, true) element_list
           ["Al"; "Fe"; "Li"; "O"] 2 demo_best Hnd); [|done].
  intros e. unfold element_list. rewrite elem_of_list_to_set.
  rewrite !elem_of_cons, !elem_of_nil. tauto.
Defined.

(** X13. For an arity [k] up to the number [n] of elements, the number of
    rows times k! (n - k)! is n!. *)
Theorem assemble_list_of_systems_factorials
    (element_list : gset string) (order : nat) :
  (order ≤ size element_list)%nat →
  length (assemble_list_of_systems element_list order) *
    (fact order * fact (size element_list - order)) = fact (size element_list).
Proof.
  intros Hle. unfold assemble_list_of_systems.
  rewrite length_fmap, length_combinations. by apply choose_fact.
Qed.

Lemma assemble_list_of_systems_factorials_witness :
  let element_list : gset string := list_to_set ["Li"; "Na"; "K"; "O"; "Fe"] in
  (2 ≤ size element_list)%nat ∧
  length (assemble_list_of_systems element_list 2) *
    (fact 2 * fact (size element_list - 2)) = fact (size element_list).
Proof.
  intros element_list.
  assert (2 ≤ size element_list)%nat as Hle by (vm_compute; lia).
  split; [exact Hle|].
  exact (assemble_list_of_systems_factorials element_list 2 Hle).
Defined.

(** ** Predicates and filter, continued *)

Section predicates_more.

Implicit Types (m : string → bool) (bs : list bool) (els : list string).

Lemma any_Permutation bs bs' : bs ≡ₚ bs' → any bs = any bs'.
Proof.
  unfold any. induction 1 as [|b ?? _ IH|b1 b2 ?|??? _ IH1 _ IH2]; simpl.
  - done.
  - by rewrite IH.
  - by destruct b1, b2.
  - by rewrite IH1.
Qed.

Lemma all_Permutation bs bs' : bs ≡ₚ bs' → all bs = all bs'.
Proof.
  unfold all. induction 1 as [|b ?? _ IH|b1 b2 ?|??? _ IH1 _ IH2]; simpl.
  - done.
  - by rewrite IH.
  - by destruct b1, b2.
  - by rewrite IH1.
Qed.

Lemma sum_Permutation bs bs' : bs ≡ₚ bs' → sum bs = sum bs'.
Proof. intros Hp. unfold sum. by rewrite Hp. Qed.

Lemma all_mono m1 m2 els :
  (∀ e, m1 e = true → m2 e = true) →
  all (m1 <$> els) = true → all (m2 <$> els) = true.
Proof.
  intros Hm. unfold all. induction els as [|e els IH]; simpl; [done|].
  rewrite !andb_true_iff. intros [??]. split; [by apply Hm|by apply IH].
Qed.

Lemma metals_no_highHHI_subseteq get_hhi_production (metals : gset string) e :
  in_set (metals_no_highHHI get_hhi_production metals) e = true →
  in_set metals e = true.
Proof.
  unfold in_set, metals_no_highHHI. rewrite !bool_decide_eq_true.
  rewrite elem_of_filter. tauto.
Qed.

End predicates_more.

(** X14. No predicate of the notebook looks at the order of the elements in
    a tuple: on two tuples with the same members each gives the same
    answer. *)
Theorem predicates_ignore_order
    (metals low_risk : gset string) (els els' : list string) :
  els ≡ₚ els' →
  f_alkali els = f_alkali els' ∧
  f_alkali_no_halogen els = f_alkali_no_halogen els' ∧
  f_chalcohalide els = f_chalcohalide els' ∧
  f_oxide els = f_oxide els' ∧
  f_metal_oxide metals els = f_metal_oxide metals els' ∧
  f_3d_oxide els = f_3d_oxide els' ∧
  f_intermetallic metals els = f_intermetallic metals els' ∧
  f_intermetallic_low_hhi low_risk els = f_intermetallic_low_hhi low_risk els' ∧
  f_intermetallic_3d low_risk els = f_intermetallic_3d low_risk els'.
Proof.
  intros Hp.
  assert (∀ m, any (m <$> els) = any (m <$> els')) as Hany
    by (intros m; apply any_Permutation; by rewrite Hp).
  assert (∀ m, all (m <$> els) = all (m <$> els')) as Hall
    by (intros m; apply all_Permutation; by rewrite Hp).
  assert (∀ m, sum (m <$> els) = sum (m <$> els')) as Hsum
    by (intros m; apply sum_Permutation; by rewrite Hp).
  pose proof (Permutation_length Hp) as Hlen.
  unfold f_alkali, f_alkali_no_halogen, f_chalcohalide, f_metal_oxide,
    f_3d_oxide, f_oxide, f_intermetallic, f_intermetallic_low_hhi,
    f_intermetallic_3d.
  rewrite !Hany, !Hall, !Hsum, Hlen. done.
Qed.

Lemma predicates_ignore_order_witness :
  ["O"; "Fe"; "Li"] ≡ₚ ["Li"; "O"; "Fe"] ∧
  f_alkali ["O"; "Fe"; "Li"] = f_alkali ["Li"; "O"; "Fe"] ∧
  f_metal_oxide {["Fe"; "Li"]} ["O"; "Fe"; "Li"] =
    f_metal_oxide {["Fe"; "Li"]} ["Li"; "O"; "Fe"].
Proof.
  assert (["O"; "Fe"; "Li"] ≡ₚ ["Li"; "O"; "Fe"]) as Hp.
  { change (["O"; "Fe"] ++ ["Li"] ≡ₚ ["Li"] ++ ["O"; "Fe"]).
    apply Permutation_app_comm. }
  pose proof (predicates_ignore_order {["Fe"; "Li"]} ∅ _ _ Hp)
    as (H1 & _ & _ & _ & H5 & _).
  split; [exact Hp|]. split; [exact H1|exact H5].
Defined.

(** X15. How the predicates narrow one another: the halogen-free alkali
    predicate implies the alkali one, both oxide refinements imply the oxide
    one, the 3d intermetallic predicate implies the low-risk one, and the
    low-risk one implies the intermetallic one, since the low-risk metals
    are picked among the metals; a chalcohalide tuple never passes the
    halogen-free predicate; and the three alkali metals of the list are
    metals whatever the transition metals are. *)
Theorem predicates_refine
    (get_hhi_production : string → option Z) (tms metals : gset string)
    (els : list string) (e : string) :
  (f_alkali_no_halogen els = true → f_alkali els = true) ∧
  (f_metal_oxide metals els = true → f_oxide els = true) ∧
  (f_3d_oxide els = true → f_oxide els = true) ∧
  (f_intermetallic_3d (metals_no_highHHI get_hhi_production metals) els = true →
   f_intermetallic_low_hhi (metals_no_highHHI get_hhi_production metals) els = true) ∧
  (f_intermetallic_low_hhi (metals_no_highHHI get_hhi_production metals) els = true →
   f_intermetallic metals els = true) ∧
  (f_chalcohalide els = true → f_alkali_no_halogen els = false) ∧
  (in_list alkali_metals e = true → in_set (metals_of tms) e = true).
Proof.
  unfold f_alkali_no_halogen, f_metal_oxide, f_3d_oxide, f_intermetallic_3d,
    f_chalcohalide, f_intermetallic_low_hhi, f_intermetallic, f_alkali.
  split_and!.
  - by intros [? _]%andb_true_iff.
  - by intros [? _]%andb_true_iff.
  - by intros [? _]%andb_true_iff.
  - by intros [? _]%andb_true_iff.
  - apply all_mono. intros e'. apply metals_no_highHHI_subseteq.
  - intros [_ ->]%andb_true_iff. simpl. apply andb_false_r.
  - unfold in_list, in_set, alkali_metals, metals_of.
    rewrite !bool_decide_eq_true. intros He.
    apply elem_of_union. left. apply elem_of_union. right.
    by apply elem_of_list_to_set.
Qed.

Lemma predicates_refine_witness :
  f_alkali_no_halogen ["K"; "O"; "W"] = true ∧ f_alkali ["K"; "O"; "W"] = true ∧
  f_chalcohalide ["K"; "O"; "Br"] = true ∧
  f_alkali_no_halogen ["K"; "O"; "Br"] = false.
Proof.
  assert (f_alkali_no_halogen ["K"; "O"; "W"] = true) as H1 by (by vm_compute).
  assert (f_chalcohalide ["K"; "O"; "Br"] = true) as H2 by (by vm_compute).
  split; [exact H1|]. split.
  - exact (proj1 (predicates_refine (λ _, None) ∅ ∅ ["K"; "O"; "W"] "K") H1).
  - split; [exact H2|].
    pose proof (predicates_refine (λ _, None) ∅ ∅ ["K"; "O"; "Br"] "K")
      as (_ & _ & _ & _ & _ & H6 & _).
    exact (H6 H2).
Defined.

Section filter_more.

Implicit Types (f g : list string → bool) (systems : list SystemRow)
  (compounds data : Table).

Lemma possible_systems_mono f g systems :
  (∀ els, f els = true → g els = true) →
  possible_systems f systems ⊆ possible_systems g systems.
Proof.
  intros Hfg k. unfold possible_systems.
  rewrite !elem_of_list_to_set, !list_elem_of_fmap.
  intros (row & -> & Hrow). exists row. split; [done|].
  apply list_elem_of_filter in Hrow as [??]. apply list_elem_of_filter. auto.
Qed.

Lemma results_mono f g systems compounds :
  (∀ els, f els = true → g els = true) →
  results f systems compounds `sublist_of` results g systems compounds.
Proof.
  intros Hfg. pose proof (possible_systems_mono f g systems Hfg) as Hsub.
  unfold results. induction compounds as [|r rest IH]; [done|].
  rewrite !filter_cons.
  destruct (decide (system r ∈ possible_systems f systems)) as [Hin|Hout].
  - rewrite decide_True by (by apply Hsub). by apply sublist_skip.
  - case_decide; [by apply sublist_cons|done].
Qed.

Lemma size_list_to_set_le (l : list string) :
  (size (list_to_set l : gset string) ≤ length l)%nat.
Proof.
  unfold size, set_size. simpl. apply submseteq_length, NoDup_submseteq.
  - apply NoDup_elements.
  - intros x. by rewrite elem_of_elements, elem_of_list_to_set.
Qed.

Lemma results_StronglySorted f systems compounds :
  StronglySorted row_le compounds →
  StronglySorted row_le (results f systems compounds).
Proof.
  unfold results. induction 1 as [|r rest Hs IH Hr]; [constructor|].
  rewrite filter_cons. case_decide; [|done]. constructor; [done|].
  apply Forall_forall. intros x [_ Hx]%list_elem_of_filter.
  rewrite Forall_forall in Hr. by apply Hr.
Qed.

(** The kept row of any prediction in a passing system is among the
    matches, and sorts no later than the prediction. *)
Lemma kept_row_matches sort_values f systems data x :
  sorts_ascending sort_values → x ∈ data →
  system x ∈ possible_systems f systems →
  ∃ b, b ∈ results f systems (get_most_stable sort_values data) ∧
       system b = system x ∧ row_le b x.
Proof.
  intros Hsort Hx Hsys.
  pose proof (proj2 (sort_values_elem_of _ Hsort _ _) Hx) as Hs.
  apply (drop_duplicates_from_covers ∅) in Hs as (b & Hb & Hbx); [|set_solver].
  exists b. split_and!; [|done|].
  - unfold results. apply list_elem_of_filter. by rewrite Hbx.
  - by apply (get_most_stable_least _ Hsort data).
Qed.

Lemma run_filters_tables (calls : list Invocation) (g : Globals) :
  candidate_systems (run_filters calls g) = candidate_systems g ∧
  dl_best (run_filters calls g) = dl_best g.
Proof.
  unfold run_filters. revert g.
  induction calls as [|i calls IH]; intros g0; [done|].
  simpl. destruct (IH (invoke g0 i)) as [-> ->]. apply invoke_tables.
Qed.

Lemma length_selected (g : Globals) (i : Invocation) :
  (length (selected g i) ≤ 2)%nat.
Proof. unfold selected. rewrite length_top_comps. lia. Qed.

Lemma length_selections (g : Globals) (calls : list Invocation) :
  (length (concat (selected g <$> calls)) ≤ 2 * length calls)%nat.
Proof.
  induction calls as [|i calls IH]; csimpl; [lia|].
  rewrite length_app. pose proof (length_selected g i). lia.
Qed.

End filter_more.

(** X16. A narrower predicate finds fewer rows: when every tuple that passes
    [f] passes [g], the rows found with [f] are among the rows found with
    [g], in the same order, and both are rows of the prediction table in
    table order. *)
Theorem results_monotone
    (f g : list string → bool) (systems : list SystemRow) (compounds : Table) :
  (∀ els, f els = true → g els = true) →
  results f systems compounds `sublist_of` results g systems compounds ∧
  results g systems compounds `sublist_of` compounds ∧
  (length (results f systems compounds) ≤
   length (results g systems compounds) ≤ length compounds)%nat.
Proof.
  intros Hfg.
  pose proof (results_mono f g systems compounds Hfg) as H1.
  pose proof (results_sublist g systems compounds) as H2.
  split_and!; [done..| |]; by apply sublist_length.
Qed.

Lemma results_monotone_witness :
  (∀ els, f_alkali_no_halogen els = true → f_alkali els = true) ∧
  results f_alkali_no_halogen demo_systems demo_best
    `sublist_of` results f_alkali demo_systems demo_best.
Proof.
  assert (∀ els, f_alkali_no_halogen els = true → f_alkali els = true) as Hfg.
  { intros els. unfold f_alkali_no_halogen, f_alkali.
    by intros [? _]%andb_true_iff. }
  split; [exact Hfg|].
  exact (proj1 (results_monotone f_alkali_no_halogen f_alkali
                  demo_systems demo_best Hfg)).
Defined.

(** X17. On a table with one row per system, as [get_most_stable] returns
    it, the number of matches is at most the number of keys that pass the
    predicate, which is at most the number of candidate systems. *)
Theorem results_count_bounds
    (f : list string → bool) (systems : list SystemRow) (compounds : Table) :
  NoDup (system <$> compounds) →
  (length (results f systems compounds) ≤ size (possible_systems f systems))%nat ∧
  (size (possible_systems f systems) ≤ length systems)%nat.
Proof.
  intros Hnd. split.
  - assert (NoDup (system <$> results f systems compounds)) as Hres.
    { apply (sublist_NoDup _ (system <$> compounds)); [done|].
      apply fmap_sublist, results_sublist. }
    rewrite <-(length_fmap system), <-(size_list_to_set (C:=gset string)) by done.
    apply subseteq_size. intros k.
    rewrite elem_of_list_to_set, list_elem_of_fmap.
    intros (r & -> & Hr). unfold results in Hr.
    by apply list_elem_of_filter in Hr as [? _].
  - unfold possible_systems. etrans; [apply size_list_to_set_le|].
    rewrite length_fmap. apply length_filter.
Qed.

Lemma results_count_bounds_witness :
  NoDup (system <$> demo_best) ∧
  (length (results f_oxide demo_systems demo_best) ≤
   size (possible_systems f_oxide demo_systems))%nat.
Proof.
  assert (NoDup (system <$> demo_best)) as Hnd
    by (apply (bool_decide_unpack _); by vm_compute).
  split; [exact Hnd|].
  exact (proj1 (results_count_bounds f_oxide demo_systems demo_best Hnd)).
Defined.

(** X18. Run on a deduplicated table, the filter selects the most stable
    matches: the first selected row sorts no later than any prediction of
    the original table whose system passes, and the second no later than
    any such prediction outside the system of the first. *)
Theorem run_filter_selects_most_stable
    (sort_values : Table → Table) (f : list string → bool)
    (systems : list SystemRow) (data : Table) (ntop : nat) :
  sorts_ascending sort_values →
  let best := get_most_stable sort_values data in
  (∀ r rest, results f systems best = r :: rest →
     ∀ x, x ∈ data → system x ∈ possible_systems f systems → row_le r x) ∧
  (∀ r1 r2 rest, results f systems best = r1 :: r2 :: rest →
     top_comps f systems best ntop = [composition r1; composition r2] ∧
     ∀ x, x ∈ data → system x ∈ possible_systems f systems →
          system x ≠ system r1 → row_le r2 x).
Proof.
  intros Hsort best.
  pose proof (results_StronglySorted f systems best
                (get_most_stable_StronglySorted _ Hsort data)) as Hs.
  split.
  - intros r rest Heq x Hx Hsys.
    destruct (kept_row_matches sort_values f systems data x)
      as (b & Hb & _ & Hbx); [done..|].
    fold best in Hb. rewrite Heq in Hb, Hs.
    apply StronglySorted_cons in Hs as [Hr _]. rewrite Forall_forall in Hr.
    apply elem_of_cons in Hb as [->|Hb]; [done|].
    trans b; [by apply Hr|done].
  - intros r1 r2 rest Heq. split.
    { unfold top_comps, head. by rewrite Heq. }
    intros x Hx Hsys Hne.
    destruct (kept_row_matches sort_values f systems data x)
      as (b & Hb & Hbsys & Hbx); [done..|].
    fold best in Hb. rewrite Heq in Hb, Hs.
    apply StronglySorted_cons in Hs as [_ Hs].
    apply StronglySorted_cons in Hs as [Hr2 _]. rewrite Forall_forall in Hr2.
    apply elem_of_cons in Hb as [->|Hb]; [congruence|].
    apply elem_of_cons in Hb as [->|Hb]; [done|].
    trans b; [by apply Hr2|done].
Qed.

Lemma run_filter_selects_most_stable_witness :
  sorts_ascending stable_sort_values ∧
  results f_oxide demo_systems
    (get_most_stable stable_sort_values demo_predictions) =
    [ mkRow 1 "FeO" (Some (-120)%Z) (Some 10%Z) "FeO";
      mkRow 2 "Al2O3" (Some (-300)%Z) (Some 10%Z) "AlO" ] ∧
  ∀ x, x ∈ demo_predictions →
       system x ∈ possible_systems f_oxide demo_systems →
       row_le (mkRow 1 "FeO" (Some (-120)%Z) (Some 10%Z) "FeO") x.
Proof.
  assert (results f_oxide demo_systems
            (get_most_stable stable_sort_values demo_predictions) =
          [ mkRow 1 "FeO" (Some (-120)%Z) (Some 10%Z) "FeO";
            mkRow 2 "Al2O3" (Some (-300)%Z) (Some 10%Z) "AlO" ]) as Heq
    by (by vm_compute).
  split; [exact stable_sort_values_sorts|]. split; [exact Heq|].
  exact (proj1 (run_filter_selects_most_stable stable_sort_values f_oxide
                  demo_systems demo_predictions 2 stable_sort_values_sorts)
           _ _ Heq).
Defined.

(** X19. After any sequence of calls of [run_filter] every table is as it
    was, the old collector is a prefix of the new one, and the collector
    has grown by at most two entries per call. *)
Theorem run_filters_frame (calls : list Invocation) (g : Globals) :
  candidate_systems (run_filters calls g) = candidate_systems g ∧
  dl_best (run_filters calls g) = dl_best g ∧
  list_of_interesting_compounds g
    `prefix_of` list_of_interesting_compounds (run_filters calls g) ∧
  (length (list_of_interesting_compounds (run_filters calls g)) ≤
   length (list_of_interesting_compounds g) + 2 * length calls)%nat.
Proof.
  destruct (run_filters_tables calls g) as [Hs Hb].
  split_and!; [done..| |].
  - rewrite run_filters_collector. by apply prefix_app_r.
  - rewrite run_filters_collector, length_app.
    pose proof (length_selections g calls). lia.
Qed.

(** X21. The pattern and the concatenation undo each other on symbols:
    every match of the pattern is a symbol, and the matches in a
    concatenation of symbols are these symbols, in order. *)
Theorem elem_re_round_trip (s : string) (xs : list string) :
  Forall (λ e, is_symbol e = true) xs →
  elem_re_findall (join xs) = xs ∧
  Forall (λ e, is_symbol e = true) (elem_re_findall s).
Proof. intros Hxs. split; [by apply findall_join|apply findall_symbols]. Qed.

Lemma elem_re_round_trip_witness :
  Forall (λ e, is_symbol e = true) ["Na"; "Cr"; "Pb"; "F"] ∧
  elem_re_findall (join ["Na"; "Cr"; "Pb"; "F"]) = ["Na"; "Cr"; "Pb"; "F"].
Proof.
  assert (Forall (λ e, is_symbol e = true) ["Na"; "Cr"; "Pb"; "F"]) as Hxs
    by (by repeat constructor).
  split; [exact Hxs|].
  exact (proj1 (elem_re_round_trip EmptyString _ Hxs)).
Defined.

(** X22. [drop_duplicates('system', keep='first')] on its own: the result is
    a part of the table in table order with no system twice, it holds
    exactly the rows that stand at the first occurrence of their system,
    and applying it again changes nothing. *)
Theorem drop_duplicates_keeps_first (data : Table) :
  drop_duplicates data `sublist_of` data ∧
  NoDup (system <$> drop_duplicates data) ∧
  (∀ r, r ∈ drop_duplicates data ↔
        ∃ l1 l2, data = l1 ++ (r :: l2) ∧ ∀ x, x ∈ l1 → system x ≠ system r) ∧
  drop_duplicates (drop_duplicates data) = drop_duplicates data.
Proof.
  split_and!.
  - apply drop_duplicates_from_sublist.
  - apply drop_duplicates_from_NoDup.
  - intros r. apply elem_of_drop_duplicates.
  - apply drop_duplicates_from_id; [apply drop_duplicates_from_NoDup|set_solver].
Qed.

Lemma drop_duplicates_keeps_first_witness :
  drop_duplicates demo_predictions =
    [ mkRow 0 "Fe2O3" (Some (-150)%Z) (Some 30%Z) "FeO";
      mkRow 2 "Al2O3" (Some (-300)%Z) (Some 10%Z) "AlO" ] ∧
  mkRow 2 "Al2O3" (Some (-300)%Z) (Some 10%Z) "AlO" ∈ drop_duplicates demo_predictions.
Proof.
  split; [by vm_compute|].
  apply (proj1 (proj2 (proj2 (drop_duplicates_keeps_first demo_predictions)))).
  exists [ mkRow 0 "Fe2O3" (Some (-150)%Z) (Some 30%Z) "FeO";
           mkRow 1 "FeO" (Some (-120)%Z) (Some 10%Z) "FeO" ],
         [ mkRow 3 "Fe3O4" (Some (-140)%Z) (Some 10%Z) "FeO";
           mkRow 4 "AlO" (Some (-90)%Z) None "AlO" ].
  split; [done|]. intros x Hx.
  repeat (apply elem_of_cons in Hx as [->|Hx]); try by apply elem_of_nil in Hx.
  all: simpl; discriminate.
Defined.

Lemma systems_of_allowed_elements_witness :
  let out :=
    assemble_list_of_systems
      (allowed_elements {["La"; "Ce"]} ["LaFeO3"; "ArFe"; "UO2"]) 2 in
  sys_system <$> out = ["FeO"] ∧
  ∀ row, row ∈ out → get_elems (sys_system row) = sys_system row.
Proof.
  intros out. split; [by vm_compute|].
  intros row Hrow.
  exact (proj1 (proj2 (systems_of_allowed_elements {["La"; "Ce"]}
                         ["LaFeO3"; "ArFe"; "UO2"] 2) row Hrow)).
Defined.
